(** * Verification of the pachyderm [collection] package

    A shallow embedding of [src/server/pkg/collection/collection.go]:
    path derivation, the transactional (read-write) view with its
    secondary-index maintenance, the integer view, the indirect iterator of
    the read-only view and the event translator of [WatchByIndex].

    Go strings are byte strings; they are modelled by [string].  The etcd
    key space is a finite map from paths to texts ([gmap string string]). *)

From Stdlib Require Import ZArith Ascii DecimalString DecimalPos.
From stdpp Require Import base option list strings gmap.

(** ** Go standard library functions used by the package *)

Module GoStrings.

Definition slash : ascii := "/"%char.

(** [len(s) > 0 && s[len(s)-1] == '/'] *)
Fixpoint ends_with_slash (s : string) : bool :=
  match s with
  | EmptyString => false
  | String c EmptyString => bool_decide (c = slash)
  | String _ s' => ends_with_slash s'
  end.

(** [strings.TrimRight(s, "/")]: drops every trailing ['/']. *)
Fixpoint TrimRight_slash (s : string) : string :=
  match s with
  | EmptyString => EmptyString
  | String c s' =>
      let t := TrimRight_slash s' in
      if bool_decide (c = slash) && bool_decide (t = EmptyString)
      then EmptyString
      else String c t
  end.

(** [strings.Split(s, "/")]: the elements between separators; never
    the empty list. *)
Fixpoint split_slash (s : string) : list string :=
  match s with
  | EmptyString => [EmptyString]
  | String c s' =>
      if bool_decide (c = slash) then EmptyString :: split_slash s'
      else match split_slash s' with
           | x :: xs => String c x :: xs
           | [] => [String c EmptyString]
           end
  end.

(** [strings.Join(elems, "/")] *)
Fixpoint join_slash (elems : list string) : string :=
  match elems with
  | [] => EmptyString
  | [e] => e
  | e :: rest => e +:+ "/" +:+ join_slash rest
  end.

Definition rooted (s : string) : bool :=
  match s with
  | String c _ => bool_decide (c = slash)
  | EmptyString => false
  end.

Fixpoint no_slash (s : string) : bool :=
  match s with
  | EmptyString => true
  | String c s' => negb (bool_decide (c = slash)) && no_slash s'
  end.

(** A key that is one path element: not empty, without separator, and
    neither ["."] nor [".."]. *)
Definition simple_key (k : string) : bool :=
  negb (bool_decide (k = "")) && no_slash k
  && negb (bool_decide (k = ".")) && negb (bool_decide (k = "..")).

End GoStrings.

Module GoPath.
Import GoStrings.

(** One round of the loop of [path.Clean], taken element by element.
    [out] is the output built so far, last element first.  An empty
    element and ["."] are dropped; [".."] removes the last real element
    when there is one ([out.w > dotdot]), is kept at the front of a
    path that is not rooted, and is dropped at the root. *)
Definition clean_step (is_rooted : bool) (out : list string) (elem : string)
  : list string :=
  if bool_decide (elem = "") then out
  else if bool_decide (elem = ".") then out
  else if bool_decide (elem = "..") then
    match out with
    | top :: rest =>
        if bool_decide (top = "..")
        then (if is_rooted then out else ".." :: out)
        else rest
    | [] => if is_rooted then [] else [".."]
    end
  else elem :: out.

(** [path.Clean]: the shortest path name equivalent to [p] by purely
    lexical processing. *)
Definition Clean (p : string) : string :=
  if bool_decide (p = "") then "."
  else
    let r := rooted p in
    let out := fold_left (clean_step r) (split_slash p) [] in
    match out with
    | [] => if r then "/" else "."
    | _ => (if r then "/" else "") +:+ join_slash (rev out)
    end.

(** [path.Join]: the elements from the first non-empty one on are joined
    with ['/'] and cleaned; all elements empty gives the empty string. *)
Fixpoint Join (elem : list string) : string :=
  match elem with
  | [] => ""
  | e :: rest =>
      if bool_decide (e = "") then Join rest
      else Clean (join_slash (e :: rest))
  end.

(** [path.Base]: the last element of the path, trailing slashes
    removed first. *)
Definition Base (p : string) : string :=
  if bool_decide (p = "") then "."
  else
    let b := List.last (split_slash (TrimRight_slash p)) "" in
    if bool_decide (b = "") then "/" else b.

End GoPath.

Module GoStrconv.

Inductive num_error := ErrSyntax | ErrRange.

Global Instance num_error_eq_dec : EqDecision num_error.
Proof. solve_decision. Defined.

Definition maxUint64 : Z := 18446744073709551615.
Definition intCutoff : Z := 9223372036854775808.

Definition digit_of (c : ascii) : option Z :=
  let n := Z.of_nat (nat_of_ascii c) in
  if (48 <=? n)%Z && (n <=? 57)%Z then Some (n - 48)%Z else None.

(** The digit loop of [strconv.ParseUint(s, 10, 64)]. *)
Fixpoint ParseUint_loop (s : string) (n : Z) : Z + num_error :=
  match s with
  | EmptyString => inl n
  | String c s' =>
      match digit_of c with
      | None => inr ErrSyntax
      | Some d =>
          if (maxUint64 / 10 + 1 <=? n)%Z then inr ErrRange
          else
            let n1 := (n * 10 + d)%Z in
            if (maxUint64 <? n1)%Z then inr ErrRange
            else ParseUint_loop s' n1
      end
  end.

Definition ParseUint (s : string) : Z + num_error :=
  if bool_decide (s = "") then inr ErrSyntax else ParseUint_loop s 0.

(** [strconv.Atoi] for a 64-bit [int]: an optional sign and decimal
    digits.  The result is the number, or the kind of the
    [*strconv.NumError] (whose [Num] is the input). *)
Definition Atoi (s : string) : Z + num_error :=
  match s with
  | EmptyString => inr ErrSyntax
  | String c s' =>
      let neg := bool_decide (c = "-"%char) in
      let digits := if neg || bool_decide (c = "+"%char) then s' else s in
      match ParseUint digits with
      | inr ErrSyntax => inr ErrSyntax
      | r =>
          let un := match r with inl n => n | inr _ => maxUint64 end in
          if negb neg && (intCutoff <=? un)%Z then inr ErrRange
          else if neg && (intCutoff <? un)%Z then inr ErrRange
          else inl (if neg then - un else un)%Z
      end
  end.

(** [strconv.Itoa] *)
Definition Itoa (n : Z) : string :=
  NilEmpty.string_of_int (Z.to_int n).

(** Arithmetic on [int] wraps around at 64 bits. *)
Definition wrap_int (n : Z) : Z :=
  ((n + intCutoff) mod (2 * intCutoff) - intCutoff)%Z.

End GoStrconv.

(** ** Data model *)

(** Modelled from the spec: the type [Index] is declared outside [src/];
    an index is the name of the record field that supplies the index
    value, and the source uses it as a string. *)
Definition Index : Type := string.

(** Modelled from the spec: the error values of the package
    ([ErrNotFound], [ErrExists], [ErrMalformedValue]) are declared outside
    [src/]; the fields are the ones the source fills in.  [ErrNum] is a
    [*strconv.NumError], [ErrProto] an error of [proto.UnmarshalText] and
    [ErrStore] an error of the etcd client. *)
Inductive error :=
| ErrNotFound (Type_ Key : string)
| ErrExists (Type_ Key : string)
| ErrMalformedValue (Type_ Key Val : string)
| ErrNum (Num : string) (Err : GoStrconv.num_error)
| ErrProto (msg : string)
| ErrStore (msg : string).

Global Instance error_eq_dec : EqDecision error.
Proof. solve_decision. Defined.

(** The part of the [proto.Message] interface the package relies on:
    [val.String()], [proto.UnmarshalText(text, val)] (which resets [val]
    and fills it, or fails with a message) and the text of the field
    named by an index, [fmt.Sprintf("%s", FieldByName(index))]. *)
Class Message (M : Type) := {
  String_ : M -> string;
  UnmarshalText : string -> M + string;
  FieldByName : Index -> M -> string;
}.

Record collection := {
  prefix : string;
  indexes : option (list Index);
}.

(** [NewCollection]: the etcd client is kept out of the record; the
    read-only operations below take the live store as an argument. *)
Definition NewCollection (prefix : string) (indexes : option (list Index))
  : collection :=
  let prefix :=
    if bool_decide (0 < String.length prefix)
       && negb (GoStrings.ends_with_slash prefix)
    then prefix +:+ "/" else prefix in
  {| prefix := prefix; indexes := indexes |}.

(** [path] returns the full path of a key in the etcd namespace. *)
Definition path (c : collection) (key : string) : string :=
  GoPath.Join [prefix c; key].

Definition indexDir (c : collection) (index : Index) (indexVal : string)
  : string :=
  let indexDir := GoStrings.TrimRight_slash (prefix c) in
  indexDir +:+ "__index_" +:+ index +:+ "/" +:+ indexVal.

Definition indexPath (c : collection) (index : Index) (indexVal key : string)
  : string :=
  GoPath.Join [indexDir c index indexVal; key].

(** ** The transaction *)

Inductive stm_op :=
| OpPut (key val : string)
| OpDel (key : string).

(** Modelled from the spec: the [STM] interface is declared outside
    [src/].  [Get(path)] gives the text or the empty string, [Put] and
    [Del] are queued on the transaction and visible to its later reads.
    [kvs] is the key space as the transaction sees it, [wlog] the writes
    it has issued, oldest first. *)
Record stm_state := {
  kvs : gmap string string;
  wlog : list stm_op;
}.

(** A computation in the transaction. *)
Definition STM (A : Type) : Type := stm_state -> A * stm_state.

Global Instance STM_ret : MRet STM := fun A a st => (a, st).
Global Instance STM_bind : MBind STM :=
  fun A B f m st => let '(a, st') := m st in f a st'.

(** Modelled from the spec: [STM.Get], the text at the path or the empty
    string. *)
Definition stm_Get (key : string) : STM string :=
  fun st => (default "" (kvs st !! key), st).

(** Modelled from the spec: [STM.Put]. *)
Definition stm_Put (key val : string) : STM unit :=
  fun st => (tt, {| kvs := <[key := val]> (kvs st);
                    wlog := wlog st ++ [OpPut key val] |}).

(** Modelled from the spec: [STM.Del]. *)
Definition stm_Del (key : string) : STM unit :=
  fun st => (tt, {| kvs := delete key (kvs st);
                    wlog := wlog st ++ [OpDel key] |}).

(** [for _, x := range xs { body(x) }] *)
Fixpoint for_range {A} (xs : list A) (body : A -> STM unit) : STM unit :=
  match xs with
  | [] => mret tt
  | x :: xs' => body x ;; for_range xs' body
  end.

(** ** The transactional view: [readWriteCollection] *)

Module ReadWrite.
Section ReadWrite.
Context {M : Type} `{!Message M}.

Definition Get (c : collection) (key : string) : STM (M + error) :=
  valStr ← stm_Get (path c key);
  if bool_decide (valStr = "") then mret (inr (ErrNotFound (prefix c) key))
  else mret (match UnmarshalText valStr with
             | inl val => inl val
             | inr msg => inr (ErrProto msg)
             end).

Definition indexPathFromVal (c : collection) (val : M) (index : Index)
    (key : string) : string :=
  let indexKey := FieldByName index val in
  indexPath c index indexKey key.

(** The body of the loop of [Put] for one index. *)
Definition Put_index (c : collection) (key : string) (val : M)
    (index : Index) : STM unit :=
  let indexPath := indexPathFromVal c val index key in
  r ← Get c key;
  match r with
  | inl clone =>
      let originalIndexPath := indexPathFromVal c clone index key in
      if bool_decide (originalIndexPath ≠ indexPath)
      then stm_Del originalIndexPath
      else mret tt
  | inr _ => mret tt
  end ;;
  cur ← stm_Get indexPath;
  if bool_decide (cur = "") then stm_Put indexPath key else mret tt.

Definition Put (c : collection) (key : string) (val : M) : STM unit :=
  match indexes c with
  | Some ixs => for_range ixs (Put_index c key val)
  | None => mret tt
  end ;;
  stm_Put (path c key) (String_ val).

Definition Create (c : collection) (key : string) (val : M)
  : STM (option error) :=
  let fullKey := path c key in
  valStr ← stm_Get fullKey;
  if bool_decide (valStr ≠ "") then mret (Some (ErrExists (prefix c) key))
  else Put c key val ;; mret None.

(** The body of the loop of [Delete] for one index: the current record
    is read again into the supplied value. *)
Definition Delete_index (c : collection) (key : string) (index : Index)
  : STM unit :=
  r ← Get c key;
  match r with
  | inl val => stm_Del (indexPathFromVal c val index key)
  | inr _ => mret tt
  end.

(** [vals] is the variadic argument: only its first element is used. *)
Definition Delete (c : collection) (key : string) (vals : list M)
  : STM (option error) :=
  let fullKey := path c key in
  cur ← stm_Get fullKey;
  if bool_decide (cur = "") then mret (Some (ErrNotFound (prefix c) key))
  else
    match indexes c, vals with
    | Some ixs, _ :: _ => for_range ixs (Delete_index c key)
    | _, _ => mret tt
    end ;;
    stm_Del fullKey ;;
    mret None.

End ReadWrite.
End ReadWrite.

(** ** The integer view: [readWriteIntCollection] *)

Module ReadWriteInt.
Import GoStrconv.

Definition Create (c : collection) (key : string) (val : Z)
  : STM (option error) :=
  let fullKey := path c key in
  valStr ← stm_Get fullKey;
  if bool_decide (valStr ≠ "") then mret (Some (ErrExists (prefix c) key))
  else stm_Put fullKey (Itoa val) ;; mret None.

(** The error of [strconv.Atoi] is returned as it is. *)
Definition Get (c : collection) (key : string) : STM (Z + error) :=
  valStr ← stm_Get (path c key);
  if bool_decide (valStr = "") then mret (inr (ErrNotFound (prefix c) key))
  else mret (match Atoi valStr with
             | inl n => inl n
             | inr e => inr (ErrNum valStr e)
             end).

Definition Increment (c : collection) (key : string) : STM (option error) :=
  let fullKey := path c key in
  valStr ← stm_Get fullKey;
  if bool_decide (valStr = "") then mret (Some (ErrNotFound (prefix c) key))
  else
    match Atoi valStr with
    | inr _ => mret (Some (ErrMalformedValue (prefix c) key valStr))
    | inl val => stm_Put fullKey (Itoa (wrap_int (val + 1))) ;; mret None
    end.

Definition Decrement (c : collection) (key : string) : STM (option error) :=
  let fullKey := path c key in
  valStr ← stm_Get fullKey;
  if bool_decide (valStr = "") then mret (Some (ErrNotFound (prefix c) key))
  else
    match Atoi valStr with
    | inr _ => mret (Some (ErrMalformedValue (prefix c) key valStr))
    | inl val => stm_Put fullKey (Itoa (wrap_int (val - 1))) ;; mret None
    end.

Definition Delete (c : collection) (key : string) : STM (option error) :=
  let fullKey := path c key in
  cur ← stm_Get fullKey;
  if bool_decide (cur = "") then mret (Some (ErrNotFound (prefix c) key))
  else stm_Del fullKey ;; mret None.

End ReadWriteInt.

(** ** The read-only view: [readonlyCollection] *)

(** [mvccpb.KeyValue], the fields the package reads. *)
Record KeyValue := {
Key : string;
Value : string;
}.

(** The live store as a read sees it: [etcd_Get] is a point read,
  [etcd_GetPrefix] a read of a key range by prefix, newest modification
  first.  Either gives the key-value pairs found or the error of the
  client.  The store changes between calls, so every operation below
  takes the store of the moment it runs. *)
Record etcdClient := {
etcd_Get : string -> list KeyValue + string;
etcd_GetPrefix : string -> list KeyValue + string;
}.

Module Readonly.
Section Readonly.
Context {M : Type} `{!Message M}.

Definition Get (cl : etcdClient) (c : collection) (key : string)
  : M + error :=
  match etcd_Get cl (path c key) with
  | inr err => inr (ErrStore err)
  | inl [] => inr (ErrNotFound (prefix c) key)
  | inl (kv :: _) =>
      match UnmarshalText (Value kv) with
      | inl val => inl val
      | inr msg => inr (ErrProto msg)
      end
  end.

(** An indirect iterator goes through a list of keys and retrieves
    those items from the collection. *)
Record indirectIterator := {
  index : nat;
  resp : list KeyValue;
  col : collection;
}.

(** What a call of [Next] leaves behind: the results [ok] and [retErr],
    the out-parameters ([None] when the call did not write them) and the
    iterator. *)
Record next_result := {
  ok : bool;
  retErr : option error;
  key_out : option string;
  val_out : option M;
  iter : indirectIterator;
}.

Definition Next (cl : etcdClient) (i : indirectIterator) : next_result :=
  match resp i !! index i with
  | Some kv =>
      let i' := {| index := index i + 1; resp := resp i; col := col i |} in
      let key := GoPath.Base (Key kv) in
      match Get cl (col i) key with
      | inr err =>
          {| ok := false; retErr := Some err; key_out := Some key;
             val_out := None; iter := i' |}
      | inl val =>
          {| ok := true; retErr := None; key_out := Some key;
             val_out := Some val; iter := i' |}
      end
  | None =>
      {| ok := false; retErr := None; key_out := None; val_out := None;
         iter := i |}
  end.

Definition GetByIndex (cl : etcdClient) (c : collection) (index : Index)
    (val : string) : indirectIterator + error :=
  match etcd_GetPrefix cl (indexDir c index val) with
  | inr err => inr (ErrStore err)
  | inl resp => inl {| index := 0; resp := resp; col := c |}
  end.

End Readonly.
End Readonly.

(** ** The translator of [WatchByIndex] *)

Module Watch.

(** Modelled from the spec: the package [watch] is outside [src/]; an
    event is tagged put, delete or error. *)
Inductive EventType := EventPut | EventDelete | EventError.

(** Modelled from the spec: [watch.Event] carries a key and, for a put, a
    value; these are the fields the translator reads and writes.  A [nil]
    value is [None]. *)
Record Event := {
  ev_Key : string;
  ev_Value : option string;
  ev_Type : EventType;
  ev_Err : option error;
}.

(** What one round of the loop does with the event it received. *)
Inductive round :=
| Send (directEv : Event)
| Continue
| Return (retErr : option error).

Definition translate (cl : etcdClient) (c : collection) (ev : Event)
  : round :=
  match ev_Type ev with
  | EventError => Return (ev_Err ev)
  | EventPut =>
      match etcd_Get cl (path c (GoPath.Base (ev_Key ev))) with
      | inr err => Return (Some (ErrStore err))
      | inl [] => Continue
      | inl (kv :: _) =>
          Send {| ev_Key := GoPath.Base (ev_Key ev);
                  ev_Value := Some (Value kv);
                  ev_Type := ev_Type ev;
                  ev_Err := None |}
      end
  | EventDelete =>
      Send {| ev_Key := GoPath.Base (ev_Key ev);
              ev_Value := None;
              ev_Type := ev_Type ev;
              ev_Err := None |}
  end.

(** The output channel: the events sent on it, oldest first, and
    whether it has been closed. *)
Record EventChan := {
  sent : list Event;
  closed : bool;
}.

Definition send (ev : Event) (ch : EventChan) : EventChan :=
  {| sent := ev :: sent ch; closed := closed ch |}.

(** The forwarding task of [WatchByIndex].  [upstream] is what the
    watch of the index directory delivers before it is closed; each
    event comes with the store as it is when the event is handled. *)
Fixpoint WatchByIndex (c : collection)
    (upstream : list (etcdClient * Event)) : EventChan :=
  match upstream with
  | [] => {| sent := []; closed := true |}
  | (cl, ev) :: upstream' =>
      match translate cl c ev with
      | Return (Some retErr) =>
          {| sent := [{| ev_Key := ""; ev_Value := None;
                         ev_Type := EventError; ev_Err := Some retErr |}];
             closed := true |}
      | Return None => {| sent := []; closed := false |}
      | Continue => WatchByIndex c upstream'
      | Send directEv => send directEv (WatchByIndex c upstream')
      end
  end.

(** The three shapes of event the task deals in: [&watch.Event{Type:
    EventError, Err: e}], a put event with key and value, a delete event
    with a key only. *)
Definition error_event (e : error) : Event :=
  {| ev_Key := ""; ev_Value := None; ev_Type := EventError;
     ev_Err := Some e |}.

Definition put_event (key value : string) : Event :=
  {| ev_Key := key; ev_Value := Some value; ev_Type := EventPut;
     ev_Err := None |}.

Definition delete_event (key : string) : Event :=
  {| ev_Key := key; ev_Value := None; ev_Type := EventDelete;
     ev_Err := None |}.

End Watch.

(** ** The paths as the specification words them *)

Module PathSpec.

(** [rstrip(prefix, "/")] *)
Definition rstrip (s : string) : string := GoStrings.TrimRight_slash s.

(** Primary path = [prefix + key]. *)
Definition primary_path (prefix key : string) : string := prefix +:+ key.

(** Index path =
    [rstrip(prefix, "/") + "__index_" + indexName + "/" + indexValue + "/" + key]. *)
Definition index_path (prefix indexName indexValue key : string) : string :=
  rstrip prefix +:+ "__index_" +:+ indexName +:+ "/" +:+ indexValue
  +:+ "/" +:+ key.

End PathSpec.

(** ** [Put] as the specification words it

    The second definition of [Put], following the specification: the
    declared indexes are processed in declaration order, and the record
    is written to the primary path after all of them. *)

Module PutSpec.
Section PutSpec.
Context {M : Type} `{!Message M}.

(** The value a path resolves to in the transaction; the empty text when
    there is none. *)
Definition resolve (st : stm_state) (p : string) : string :=
  default "" (kvs st !! p).

Definition write (p v : string) (st : stm_state) : stm_state :=
  {| kvs := <[p := v]> (kvs st); wlog := wlog st ++ [OpPut p v] |}.

Definition remove (p : string) (st : stm_state) : stm_state :=
  {| kvs := delete p (kvs st); wlog := wlog st ++ [OpDel p] |}.

(** The record currently stored at [key], when it can be read. *)
Definition prior_record (c : collection) (key : string) (st : stm_state)
  : option M :=
  if bool_decide (resolve st (path c key) = "") then None
  else match UnmarshalText (resolve st (path c key)) with
       | inl r => Some r
       | inr _ => None
       end.

Definition index_path_of (c : collection) (index : Index) (r : M)
    (key : string) : string :=
  indexPath c index (FieldByName index r) key.

(** Delete the prior index path if the prior record yields a different
    one. *)
Definition drop_prior (c : collection) (key : string) (record : M)
    (index : Index) (st : stm_state) : stm_state :=
  match prior_record c key st with
  | Some prior =>
      if bool_decide (index_path_of c index prior key
                      = index_path_of c index record key)
      then st
      else remove (index_path_of c index prior key) st
  | None => st
  end.

(** Write the back-reference only if the new index path does not already
    resolve to a value. *)
Definition add_new (c : collection) (key : string) (record : M)
    (index : Index) (st : stm_state) : stm_state :=
  if bool_decide (resolve st (index_path_of c index record key) = "")
  then write (index_path_of c index record key) key st
  else st.

Definition process_index (c : collection) (key : string) (record : M)
    (st : stm_state) (index : Index) : stm_state :=
  add_new c key record index (drop_prior c key record index st).

Definition Put_spec (c : collection) (declared : list Index) (key : string)
    (record : M) (st : stm_state) : stm_state :=
  write (path c key) (String_ record)
        (fold_left (process_index c key record) declared st).

(** The loop body of [Put] treats the state as one with no prior index
    entry: nothing is deleted, only the new entry is added if missing. *)
Definition treated_as_no_prior (c : collection) (key : string) (record : M)
    (index : Index) (st : stm_state) : Prop :=
  ReadWrite.Put_index c key record index st
  = (tt, add_new c key record index st).

End PutSpec.
End PutSpec.

(** ** A record type to run the definitions on *)

Module Job.

(** A record with one field, [State].  Its text is empty for the zero
    record, as the text format leaves out fields with their default. *)
Record JobInfo := { State : string }.

Definition text (j : JobInfo) : string :=
  if bool_decide (State j = "") then "" else "State:" +:+ State j.

Definition parse (s : string) : JobInfo + string :=
  match s with
  | EmptyString => inl {| State := "" |}
  | _ =>
      if String.prefix "State:" s
      then inl {| State := String.substring 6 (String.length s - 6) s |}
      else inr "unknown field"
  end.

Global Instance JobInfo_Message : Message JobInfo := {|
  String_ := text;
  UnmarshalText := parse;
  FieldByName := fun index j =>
    if bool_decide (index = "State") then State j else "";
|}.

Definition jobs : collection := NewCollection "jobs" (Some ["State"]).

Definition empty_stm : stm_state := {| kvs := ∅; wlog := [] |}.

(** The transaction after the creation of ["j1"] in state ["running"]. *)
Definition running_stm : stm_state :=
  (ReadWrite.Create jobs "j1" {| State := "running" |} empty_stm).2.

Definition counters : collection := NewCollection "counters" None.

(** A transaction in which the counter ["k"] holds a text that is not a
    number. *)
Definition malformed_stm : stm_state :=
  {| kvs := {[ "counters/k" := "abc" ]}; wlog := [] |}.

(** A store that answers from a key space, and one that fails. *)
Definition live (m : gmap string string) : etcdClient :=
  {| etcd_Get := fun p =>
       inl (match m !! p with
            | Some v => [{| Key := p; Value := v |}]
            | None => []
            end);
     etcd_GetPrefix := fun p =>
       inl ((fun kv => {| Key := kv.1; Value := kv.2 |})
              <$> filter (fun kv => String.prefix p kv.1 = true)
                         (map_to_list m)) |}.

Definition down : etcdClient :=
  {| etcd_Get := fun _ => inr "unavailable";
     etcd_GetPrefix := fun _ => inr "unavailable" |}.

(** A transaction in which the text stored for ["j1"] does not parse,
    with the index entry a former record left. *)
Definition garbled_stm : stm_state :=
  {| kvs := {[ "jobs/j1" := "garbage";
               "jobs__index_State/running/j1" := "j1" ]};
     wlog := [] |}.

End Job.

(** ** The direct iterator of [List] *)

Module Listing.
Section Listing.
Context {M : Type} `{!Message M}.

(** [iterator]: the position in the response of a range read. *)
Record iterator := {
  index : nat;
  resp : list KeyValue;
}.

(** What a call of [Next] leaves behind, as for the indirect iterator. *)
Record next_result := {
  ok : bool;
  retErr : option error;
  key_out : option string;
  val_out : option M;
  iter : iterator;
}.

Definition Next (i : iterator) : next_result :=
  match resp i !! index i with
  | Some kv =>
      let i' := {| index := index i + 1; resp := resp i |} in
      let key := GoPath.Base (Key kv) in
      match UnmarshalText (Value kv) with
      | inr msg =>
          {| ok := false; retErr := Some (ErrProto msg); key_out := Some key;
             val_out := None; iter := i' |}
      | inl val =>
          {| ok := true; retErr := None; key_out := Some key;
             val_out := Some val; iter := i' |}
      end
  | None =>
      {| ok := false; retErr := None; key_out := None; val_out := None;
         iter := i |}
  end.

(** [List]: a range read of everything under the prefix of the
    collection. *)
Definition List (cl : etcdClient) (c : collection) : iterator + error :=
  match etcd_GetPrefix cl (prefix c) with
  | inr err => inr (ErrStore err)
  | inl resp => inl {| index := 0; resp := resp |}
  end.

End Listing.
End Listing.

(** ** The paths one [Put] or [Delete] touches *)

Module Layout.
Section Layout.
Context {M : Type} `{!Message M}.

(** The records whose index paths a [Put] of [record] at [key] can
    touch: the record itself and the one stored at [key] before. *)
Definition involved (c : collection) (key : string) (record : M)
    (st : stm_state) (r : M) : Prop :=
  r = record \/ PutSpec.prior_record c key st = Some r.

(** The paths in play are kept apart: two different declared indexes
    never share an index path, and no index path is the primary path. *)
Definition separated (c : collection) (declared : list Index) (key : string)
    (record : M) (st : stm_state) : Prop :=
  (forall (ix ix' : Index) (r r' : M),
      ix ∈ declared -> ix' ∈ declared -> ix <> ix' ->
      involved c key record st r -> involved c key record st r' ->
      PutSpec.index_path_of c ix r key <> PutSpec.index_path_of c ix' r' key)
  /\ (forall (ix : Index) (r : M),
        ix ∈ declared -> involved c key record st r ->
        PutSpec.index_path_of c ix r key <> path c key).

(** The state [st] has at the primary path what the state [st0] has
    there. *)
Definition primary_kept (c : collection) (key : string)
    (st0 st : stm_state) : Prop :=
  PutSpec.resolve st (path c key) = PutSpec.resolve st0 (path c key).

End Layout.
End Layout.

(** ** The value of a decimal numeral *)

Module Digits.

(** The number the digits of [d] stand for, after the digits that gave
    [acc]. *)
Fixpoint uint_val (d : Decimal.uint) (acc : Z) : Z :=
  match d with
  | Decimal.Nil => acc
  | Decimal.D0 l => uint_val l (acc * 10 + 0)
  | Decimal.D1 l => uint_val l (acc * 10 + 1)
  | Decimal.D2 l => uint_val l (acc * 10 + 2)
  | Decimal.D3 l => uint_val l (acc * 10 + 3)
  | Decimal.D4 l => uint_val l (acc * 10 + 4)
  | Decimal.D5 l => uint_val l (acc * 10 + 5)
  | Decimal.D6 l => uint_val l (acc * 10 + 6)
  | Decimal.D7 l => uint_val l (acc * 10 + 7)
  | Decimal.D8 l => uint_val l (acc * 10 + 8)
  | Decimal.D9 l => uint_val l (acc * 10 + 9)
  end%Z.

(** The numbers of type [int]. *)
Definition is_int (n : Z) : Prop :=
  (- GoStrconv.intCutoff <= n < GoStrconv.intCutoff)%Z.

End Digits.

(** * Properties *)

(** ** The definitions on concrete inputs *)

Module GoPathExamples.
Import GoPath.

Example Clean_empty : Clean "" = ".". Proof. reflexivity. Qed.
Example Clean_plain : Clean "abc/def" = "abc/def". Proof. reflexivity. Qed.
Example Clean_root : Clean "/" = "/". Proof. reflexivity. Qed.
Example Clean_trailing : Clean "abc/def/" = "abc/def". Proof. reflexivity. Qed.
Example Clean_doubled : Clean "abc//def//ghi" = "abc/def/ghi". Proof. reflexivity. Qed.
Example Clean_rooted_doubled : Clean "//abc//" = "/abc". Proof. reflexivity. Qed.
Example Clean_dot : Clean "/./abc/def" = "/abc/def". Proof. reflexivity. Qed.
Example Clean_dotdot : Clean "abc/def/../ghi/../jkl" = "abc/jkl". Proof. reflexivity. Qed.
Example Clean_dotdot_all : Clean "abc/def/../.." = ".". Proof. reflexivity. Qed.
Example Clean_dotdot_root : Clean "/abc/def/../../.." = "/". Proof. reflexivity. Qed.
Example Clean_dotdot_up :
  Clean "abc/def/../../../ghi/jkl/../../../mno" = "../../mno".
Proof. reflexivity. Qed.
Example Clean_mixed : Clean "abc/../../././../def" = "../../def". Proof. reflexivity. Qed.

Example Join_two : Join ["a"; "b"] = "a/b". Proof. reflexivity. Qed.
Example Join_empty_first : Join [""; "b"] = "b". Proof. reflexivity. Qed.
Example Join_empty_last : Join ["a/"; ""] = "a". Proof. reflexivity. Qed.
Example Join_all_empty : Join [""; ""] = "". Proof. reflexivity. Qed.
Example Join_up : Join ["a"; "../b"] = "b". Proof. reflexivity. Qed.

Example Base_plain : Base "/a/b" = "b". Proof. reflexivity. Qed.
Example Base_trailing : Base "a/b/" = "b". Proof. reflexivity. Qed.
Example Base_root : Base "/" = "/". Proof. reflexivity. Qed.
Example Base_empty : Base "" = ".". Proof. reflexivity. Qed.

Example TrimRight_many : GoStrings.TrimRight_slash "foo//" = "foo".
Proof. reflexivity. Qed.
End GoPathExamples.

Module GoStrconvExamples.
Import GoStrconv.
Example Atoi_pos : Atoi "42" = inl 42%Z. Proof. reflexivity. Qed.
Example Atoi_neg : Atoi "-17" = inl (-17)%Z. Proof. reflexivity. Qed.
Example Atoi_plus : Atoi "+7" = inl 7%Z. Proof. reflexivity. Qed.
Example Atoi_letters : Atoi "abc" = inr ErrSyntax. Proof. reflexivity. Qed.
Example Atoi_sign_only : Atoi "-" = inr ErrSyntax. Proof. reflexivity. Qed.
Example Atoi_max : Atoi "9223372036854775807" = inl 9223372036854775807%Z.
Proof. reflexivity. Qed.
Example Atoi_over : Atoi "9223372036854775808" = inr ErrRange.
Proof. reflexivity. Qed.
Example Atoi_min : Atoi "-9223372036854775808" = inl (-9223372036854775808)%Z.
Proof. reflexivity. Qed.
Example Atoi_huge : Atoi "99999999999999999999999" = inr ErrRange.
Proof. reflexivity. Qed.
Example Itoa_pos : Itoa 6 = "6". Proof. reflexivity. Qed.
Example Itoa_neg : Itoa (-12) = "-12". Proof. reflexivity. Qed.
Example Itoa_zero : Itoa 0 = "0". Proof. reflexivity. Qed.
Example wrap_int_max : wrap_int (9223372036854775807 + 1) = (-9223372036854775808)%Z.
Proof. reflexivity. Qed.
End GoStrconvExamples.

Module JobExamples.
Import Job.

Example prefix_jobs : prefix jobs = "jobs/". Proof. reflexivity. Qed.

Example parse_text : parse (text {| State := "running" |})
                     = inl {| State := "running" |}.
Proof. reflexivity. Qed.

Example create_j1 :
  wlog (ReadWrite.Create jobs "j1" {| State := "running" |} empty_stm).2
  = [OpPut "jobs__index_State/running/j1" "j1";
     OpPut "jobs/j1" "State:running"].
Proof. vm_compute. reflexivity. Qed.

(** Scenario B of the specification: the index entry moves. *)
Example put_moves_index :
  let st := (ReadWrite.Create jobs "j1" {| State := "running" |} empty_stm).2 in
  let st' := (ReadWrite.Put jobs "j1" {| State := "done" |} st).2 in
  wlog st' = wlog st ++ [OpDel "jobs__index_State/running/j1";
                         OpPut "jobs__index_State/done/j1" "j1";
                         OpPut "jobs/j1" "State:done"]
  /\ kvs st' !! "jobs__index_State/running/j1" = None
  /\ kvs st' !! "jobs__index_State/done/j1" = Some "j1".
Proof. vm_compute. auto. Qed.

(** Property P5 of the specification: a second [Put] with the same
    indexed value writes the record only. *)
Example put_same_state_no_index_write :
  wlog (ReadWrite.Put jobs "j1" {| State := "running" |} running_stm).2
  = wlog running_stm ++ [OpPut "jobs/j1" "State:running"].
Proof. vm_compute. reflexivity. Qed.

(** Property P8 of the specification. *)
Example counter :
  let c := NewCollection "counters" None in
  let st1 := (ReadWriteInt.Create c "k" 5 empty_stm).2 in
  let st2 := (ReadWriteInt.Increment c "k" st1).2 in
  let st3 := (ReadWriteInt.Increment c "k" st2).2 in
  let st4 := (ReadWriteInt.Decrement c "k" st3).2 in
  (ReadWriteInt.Get c "k" st4).1 = inl 6%Z.
Proof. vm_compute. reflexivity. Qed.

End JobExamples.

(** ** Strings and paths *)

Module PathFacts.
Import GoStrings GoPath.

Lemma app_String (ch : ascii) (s t : string) :
  String ch s +:+ t = String ch (s +:+ t).
Proof. reflexivity. Qed.

Lemma app_empty_l (s : string) : "" +:+ s = s.
Proof. reflexivity. Qed.

Lemma app_assoc_str (a b d : string) : (a +:+ b) +:+ d = a +:+ (b +:+ d).
Proof.
  induction a as [|ch a IH]; [reflexivity|].
  rewrite !app_String. by rewrite IH.
Qed.

Lemma app_not_empty (a : string) (ch : ascii) (b : string) :
  a +:+ String ch b <> "".
Proof. destruct a; discriminate. Qed.

Lemma split_slash_not_nil (s : string) : split_slash s <> [].
Proof.
  induction s as [|ch s IH]; simpl; [discriminate|].
  case_bool_decide; [discriminate|].
  destruct (split_slash s); discriminate.
Qed.

(** Splitting distributes over a separator. *)
Lemma split_slash_app (a b : string) :
  split_slash (a +:+ String slash b) = split_slash a ++ split_slash b.
Proof.
  induction a as [|ch a IH].
  - reflexivity.
  - rewrite app_String. simpl. rewrite IH.
    case_bool_decide; [reflexivity|].
    pose proof (split_slash_not_nil a) as Hne.
    destruct (split_slash a); [done|reflexivity].
Qed.

Lemma rooted_app (a : string) (ch : ascii) (b d : string) :
  rooted (a +:+ String ch b) = rooted (a +:+ String ch d).
Proof. destruct a; reflexivity. Qed.

(** [path.Clean] replaces a doubled slash by a single one. *)
Lemma Clean_double_slash (a b : string) :
  Clean (a +:+ String slash (String slash b)) = Clean (a +:+ String slash b).
Proof.
  unfold Clean.
  rewrite !bool_decide_eq_false_2 by apply app_not_empty.
  rewrite (rooted_app a slash (String slash b) b).
  rewrite (split_slash_app a (String slash b)), (split_slash_app a b).
  rewrite !fold_left_app.
  change (split_slash (String slash b)) with ("" :: split_slash b).
  reflexivity.
Qed.

Lemma ends_with_slash_app (s : string) :
  ends_with_slash s = true -> exists p, s = p +:+ "/".
Proof.
  induction s as [|ch s IH]; [discriminate|].
  destruct s as [|ch' s'].
  - simpl. intros ->%bool_decide_eq_true. by exists "".
  - intros Hs. destruct (IH Hs) as [p Hp].
    exists (String ch p). by rewrite app_String, <- Hp.
Qed.

Lemma ends_with_slash_snoc (s : string) : ends_with_slash (s +:+ "/") = true.
Proof.
  induction s as [|ch s IH]; [reflexivity|].
  rewrite app_String.
  change (ends_with_slash (String ch (s +:+ "/")))
    with (match s +:+ "/" with
          | EmptyString => bool_decide (ch = slash)
          | String _ _ => ends_with_slash (s +:+ "/")
          end).
  destruct s; exact IH.
Qed.

End PathFacts.

(** ** Path derivation *)

Module PathTheorems.
Import GoStrings GoPath PathFacts PathSpec.

(** [path.Join] cleans its result, so a key with a trailing slash (or an
    empty, ["."] or [".."] element) is not appended as it is. *)
Example path_trailing_slash :
  path Job.jobs "j1/" = "jobs/j1"
  /\ indexPath Job.jobs "State" "running" "j1/" = "jobs__index_State/running/j1".
Proof. split; reflexivity. Qed.

Example path_empty_key :
  path Job.jobs "" = "jobs"
  /\ indexPath Job.jobs "State" "running" "" = "jobs__index_State/running".
Proof. split; reflexivity. Qed.

Example path_dotdot_key : path Job.jobs "../pipelines/p1" = "pipelines/p1".
Proof. reflexivity. Qed.

Example indexPath_empty_value :
  indexPath Job.jobs "State" "" "j1" = "jobs__index_State/j1".
Proof. reflexivity. Qed.

(** C4, as stated, fails: the paths are not the plain concatenations for
    every key.  For the key ["j1/"] of the collection ["jobs/"] the
    primary path is ["jobs/j1"], not ["jobs/j1/"]. *)
Lemma paths_not_plain_concatenation :
  ~ (forall (c : collection) (key indexName indexValue : string),
        path c key = primary_path (prefix c) key
        /\ indexPath c indexName indexValue key
           = index_path (prefix c) indexName indexValue key).
Proof.
  intros Hall.
  destruct (Hall Job.jobs "j1/" "State" "running") as [Hp _].
  vm_compute in Hp. discriminate Hp.
Qed.

Lemma path_Join_nonempty (a b : string) :
  a <> "" -> Join [a; b] = Clean (a +:+ "/" +:+ b).
Proof. intros Ha. simpl. by rewrite bool_decide_eq_false_2. Qed.

Lemma path_of_clean (c : collection) (key : string) :
  prefix c = "" \/ ends_with_slash (prefix c) = true ->
  key <> "" ->
  Clean (primary_path (prefix c) key) = primary_path (prefix c) key ->
  path c key = primary_path (prefix c) key.
Proof.
  intros Hprefix Hkey Hclean. unfold path, primary_path in *.
  destruct Hprefix as [Hempty | Hslash].
  - rewrite Hempty in *. simpl.
    rewrite bool_decide_eq_false_2 by done. exact Hclean.
  - destruct (ends_with_slash_app _ Hslash) as [p Hp].
    rewrite Hp in *. rewrite path_Join_nonempty by apply app_not_empty.
    rewrite !app_assoc_str in Hclean. rewrite !app_assoc_str.
    change ("/" +:+ "/" +:+ key) with (String slash (String slash key)).
    rewrite Clean_double_slash. exact Hclean.
Qed.

Lemma indexPath_of_clean (c : collection) (key indexName indexValue : string) :
  key <> "" ->
  Clean (index_path (prefix c) indexName indexValue key)
  = index_path (prefix c) indexName indexValue key ->
  indexPath c indexName indexValue key
  = index_path (prefix c) indexName indexValue key.
Proof.
  intros Hkey Hclean. unfold indexPath, indexDir, index_path, rstrip in *.
  rewrite path_Join_nonempty by apply app_not_empty.
  rewrite !app_assoc_str. exact Hclean.
Qed.

(** C4, amended: for a prefix that is empty or ends with the separator
    and a non-empty key, the primary path is [prefix + key] whenever that
    text is a clean path (one [path.Clean] leaves as it is), and the index
    path is the concatenation of the specification whenever that text is
    a clean path. *)
Theorem paths_of_clean_keys (c : collection)
    (key indexName indexValue : string) :
  prefix c = "" \/ ends_with_slash (prefix c) = true ->
  key <> "" ->
  (Clean (primary_path (prefix c) key) = primary_path (prefix c) key ->
   path c key = primary_path (prefix c) key)
  /\ (Clean (index_path (prefix c) indexName indexValue key)
       = index_path (prefix c) indexName indexValue key ->
      indexPath c indexName indexValue key
      = index_path (prefix c) indexName indexValue key).
Proof.
  intros Hprefix Hkey. split.
  - by apply path_of_clean.
  - by apply indexPath_of_clean.
Qed.

Lemma paths_of_clean_keys_witness :
  path Job.jobs "j1" = "jobs/j1"
  /\ indexPath Job.jobs "State" "running" "j1"
     = "jobs__index_State/running/j1".
Proof.
  destruct (paths_of_clean_keys Job.jobs "j1" "State" "running") as [H1 H2].
  - right. reflexivity.
  - discriminate.
  - split; [apply H1 | apply H2]; reflexivity.
Defined.

(** The prefix of a collection built by [NewCollection]. *)
Lemma NewCollection_prefix (p : string) (ixs : option (list Index)) :
  prefix (NewCollection p ixs)
  = if bool_decide (p = "") then ""
    else if ends_with_slash p then p else p +:+ "/".
Proof.
  unfold NewCollection. simpl.
  destruct p as [|ch p]; [reflexivity|].
  rewrite (bool_decide_eq_false_2 (String ch p = "")) by discriminate.
  rewrite (bool_decide_eq_true_2 (0 < _)) by (simpl; lia).
  by destruct (ends_with_slash (String ch p)).
Qed.

(** C5, as stated, fails: the empty prefix is kept as it is. *)
Lemma NewCollection_empty_prefix :
  ~ (forall (p : string) (ixs : option (list Index)),
        ends_with_slash (prefix (NewCollection p ixs)) = true).
Proof. intros Hall. specialize (Hall "" None). discriminate Hall. Qed.

(** The empty prefix is a prefix of every path: the key space of that
    collection overlaps every other one. *)
Example empty_prefix_overlaps :
  String.prefix (prefix (NewCollection "" None))
                (path (NewCollection "foobar" None) "k") = true.
Proof. reflexivity. Qed.

Lemma prefix_String (x y : ascii) (s t : string) :
  String.prefix (String x s) (String y t)
  = if ascii_dec x y then String.prefix s t else false.
Proof. reflexivity. Qed.

Lemma prefix_app_other (a : string) (ch : ascii) (b d : string) :
  ch <> slash ->
  String.prefix (a +:+ String slash b) (a +:+ String ch d) = false.
Proof.
  intros Hch. induction a as [|x a IH].
  - rewrite !app_empty_l, prefix_String.
    destruct (ascii_dec slash ch); [congruence | reflexivity].
  - rewrite !app_String, prefix_String.
    destruct (ascii_dec x x); [exact IH | reflexivity].
Qed.

(** C5, amended: the prefix of a collection built from a non-empty
    prefix ends with the separator, and then no path under the prefix of
    a sibling whose name extends this one by a character other than the
    separator starts with this collection's prefix. *)
Theorem NewCollection_prefix_terminated (p : string)
    (ixs : option (list Index)) :
  p <> "" ->
  ends_with_slash (prefix (NewCollection p ixs)) = true
  /\ (forall (ch : ascii) (ext : string) (ixs' : option (list Index))
             (k : string),
        ends_with_slash p = false ->
        ch <> slash ->
        String.prefix (prefix (NewCollection p ixs))
          (prefix (NewCollection (p +:+ String ch ext) ixs') +:+ k) = false).
Proof.
  intros Hp. rewrite NewCollection_prefix.
  rewrite bool_decide_eq_false_2 by done. split.
  - destruct (ends_with_slash p) eqn:He; [exact He|].
    apply ends_with_slash_snoc.
  - intros ch ext ixs' k He Hch. rewrite He, NewCollection_prefix.
    rewrite bool_decide_eq_false_2 by apply app_not_empty.
    destruct (ends_with_slash (p +:+ String ch ext));
      rewrite !app_assoc_str, ?app_String; by apply prefix_app_other.
Qed.

Lemma NewCollection_prefix_terminated_witness :
  ends_with_slash (prefix (NewCollection "foo" None)) = true
  /\ String.prefix (prefix (NewCollection "foo" None))
       (prefix (NewCollection "foobar" None) +:+ "k") = false.
Proof.
  destruct (NewCollection_prefix_terminated "foo" None) as [H1 H2].
  - discriminate.
  - split; [exact H1|].
    apply (H2 "b"%char "ar" None "k"); [reflexivity | discriminate].
Defined.

Lemma TrimRight_slash_split (s : string) :
  exists t, s = TrimRight_slash s +:+ t
            /\ (t = "" \/ exists t', t = String slash t').
Proof.
  induction s as [|ch s (t & Hs & Ht)].
  - exists "". by split; [|left].
  - simpl. destruct (bool_decide (ch = slash) && _) eqn:Hall.
    + apply andb_true_iff in Hall as [->%bool_decide_eq_true _].
      exists (String slash s). split; [reflexivity | right; by eexists].
    + exists t. split; [|exact Ht]. rewrite app_String. by rewrite <- Hs.
Qed.

Lemma ends_with_slash_TrimRight (s : string) :
  ends_with_slash (TrimRight_slash s) = false.
Proof.
  induction s as [|ch s IH]; [reflexivity|].
  simpl. destruct (TrimRight_slash s) as [|ch' t] eqn:Ht.
  - rewrite andb_true_r. case_bool_decide as Hch; [reflexivity|].
    simpl. by rewrite bool_decide_eq_false_2.
  - rewrite andb_false_r. exact IH.
Qed.

Lemma app_differs (a : string) (x y : ascii) (s t : string) :
  x <> y -> a +:+ String x s <> a +:+ String y t.
Proof.
  intros Hxy. induction a as [|ch a IH].
  - rewrite !app_empty_l. congruence.
  - rewrite !app_String. intros Heq. apply IH. congruence.
Qed.

(** Under a prefix that ends with the separator the two layouts of the
    specification never give the same path: after the trimmed prefix a
    primary path goes on with ['/'], an index path with ['_']. *)
Lemma index_path_ne_primary_path (p key indexName indexValue key' : string) :
  ends_with_slash p = true ->
  index_path p indexName indexValue key' <> primary_path p key.
Proof.
  intros Hp. unfold index_path, primary_path, rstrip.
  destruct (TrimRight_slash_split p) as (t & Hsplit & [-> | [t' ->]]).
  - exfalso. pose proof (ends_with_slash_TrimRight p) as Hno.
    assert (Hsame : TrimRight_slash p = p).
    { rewrite Hsplit at 2. clear. induction (TrimRight_slash p) as [|ch s IH];
        [reflexivity|]. rewrite app_String. by rewrite <- IH. }
    congruence.
  - rewrite Hsplit at 2. rewrite app_assoc_str, app_String.
    change ("__index_" +:+ indexName +:+ "/" +:+ indexValue +:+ "/" +:+ key')
      with (String "_" ("_index_" +:+ indexName +:+ "/" +:+ indexValue
                        +:+ "/" +:+ key')).
    by apply app_differs.
Qed.

(** So the index path of a key and the primary path of a key differ
    whenever both are the clean paths of the layout. *)
Lemma indexPath_ne_path (c : collection) (key indexName indexValue key' : string) :
  ends_with_slash (prefix c) = true ->
  key <> "" -> key' <> "" ->
  Clean (primary_path (prefix c) key) = primary_path (prefix c) key ->
  Clean (index_path (prefix c) indexName indexValue key')
  = index_path (prefix c) indexName indexValue key' ->
  indexPath c indexName indexValue key' <> path c key.
Proof.
  intros Hp Hkey Hkey' Hc1 Hc2.
  rewrite path_of_clean, indexPath_of_clean by auto.
  by apply index_path_ne_primary_path.
Qed.

(** Without that discipline the two can meet: the primary path of this
    key is the index entry of ["j1"]. *)
Example path_meets_indexPath :
  path Job.jobs "../jobs__index_State/running/j1"
  = indexPath Job.jobs "State" "running" "j1".
Proof. reflexivity. Qed.

End PathTheorems.

(** ** The transactional view *)

Module ReadWriteTheorems.
Import ReadWrite PutSpec.

Section Runs.
Context {M : Type} `{!Message M}.

Lemma bind_run {A B : Type} (m : STM A) (f : A -> STM B) (st : stm_state) :
  (m ≫= f) st = f (m st).1 (m st).2.
Proof. unfold mbind, STM_bind. by destruct (m st). Qed.

Lemma stm_Get_run (p : string) (st : stm_state) :
  stm_Get p st = (resolve st p, st).
Proof. reflexivity. Qed.

Lemma stm_Put_run (p v : string) (st : stm_state) :
  stm_Put p v st = (tt, write p v st).
Proof. reflexivity. Qed.

Lemma stm_Del_run (p : string) (st : stm_state) :
  stm_Del p st = (tt, remove p st).
Proof. reflexivity. Qed.

Lemma Get_run (c : collection) (key : string) (st : stm_state) :
  Get (M := M) c key st
  = (if bool_decide (resolve st (path c key) = "")
     then inr (ErrNotFound (prefix c) key)
     else match UnmarshalText (resolve st (path c key)) with
          | inl val => inl val
          | inr msg => inr (ErrProto msg)
          end, st).
Proof.
  unfold Get. rewrite bind_run, stm_Get_run. simpl.
  by case_bool_decide.
Qed.

(** A failed read leaves no prior record to look at. *)
Lemma Get_fails_no_prior (c : collection) (key : string) (st : stm_state)
    (e : error) :
  (Get (M := M) c key st).1 = inr e -> prior_record c key st = None.
Proof.
  rewrite Get_run. unfold prior_record. simpl.
  case_bool_decide; [done|].
  by destruct (UnmarshalText _).
Qed.

Lemma add_new_run (c : collection) (key : string) (val : M) (index : Index)
    (st : stm_state) :
  (cur ← stm_Get (indexPathFromVal c val index key);
   if bool_decide (cur = "")
   then stm_Put (indexPathFromVal c val index key) key
   else mret tt) st
  = (tt, add_new c key val index st).
Proof.
  rewrite bind_run, stm_Get_run. simpl. unfold add_new, index_path_of.
  fold (indexPathFromVal c val index key).
  by case_bool_decide.
Qed.

Lemma Put_index_run (c : collection) (key : string) (val : M)
    (index : Index) (st : stm_state) :
  Put_index c key val index st = (tt, process_index c key val st index).
Proof.
  unfold Put_index, process_index, drop_prior, prior_record.
  rewrite bind_run, Get_run. cbn [fst snd].
  case_bool_decide as Hempty.
  - rewrite bind_run. apply add_new_run.
  - destruct (UnmarshalText _) as [prior|msg].
    + rewrite bind_run. unfold index_path_of at 1 2 3.
      fold (indexPathFromVal c prior index key).
      fold (indexPathFromVal c val index key).
      case_bool_decide as Hne; case_bool_decide as Heq; try congruence.
      * rewrite stm_Del_run. apply add_new_run.
      * apply add_new_run.
    + rewrite bind_run. apply add_new_run.
Qed.

Lemma for_range_run {A : Type} (xs : list A) (body : A -> STM unit)
    (f : stm_state -> A -> stm_state) (st : stm_state) :
  (forall x st', body x st' = (tt, f st' x)) ->
  for_range xs body st = (tt, fold_left f xs st).
Proof.
  intros Hbody. revert st.
  induction xs as [|x xs IH]; intros st; [reflexivity|].
  simpl. rewrite bind_run, Hbody. simpl. apply IH.
Qed.

Lemma Put_run (c : collection) (key : string) (val : M) (st : stm_state) :
  Put c key val st
  = (tt, write (path c key) (String_ val)
           (match indexes c with
            | Some ixs => fold_left (process_index c key val) ixs st
            | None => st
            end)).
Proof.
  unfold Put. rewrite bind_run.
  destruct (indexes c) as [ixs|].
  - rewrite (for_range_run ixs _ (process_index c key val))
      by apply Put_index_run.
    reflexivity.
  - reflexivity.
Qed.

Lemma resolve_write (p v : string) (st : stm_state) :
  resolve (write p v st) p = v.
Proof. unfold resolve, write. simpl. by rewrite lookup_insert_eq. Qed.

Lemma resolve_Put (c : collection) (key : string) (val : M)
    (st : stm_state) :
  resolve (Put c key val st).2 (path c key) = String_ val.
Proof. rewrite Put_run. apply resolve_write. Qed.

Lemma Create_run (c : collection) (key : string) (val : M)
    (st : stm_state) :
  Create c key val st
  = if bool_decide (resolve st (path c key) ≠ "")
    then (Some (ErrExists (prefix c) key), st)
    else (None, (Put c key val st).2).
Proof.
  unfold Create. rewrite bind_run, stm_Get_run. simpl.
  case_bool_decide; [reflexivity|].
  by rewrite bind_run.
Qed.

Lemma Delete_run_absent (c : collection) (key : string) (vals : list M)
    (st : stm_state) :
  resolve st (path c key) = "" ->
  Delete c key vals st = (Some (ErrNotFound (prefix c) key), st).
Proof.
  intros Habsent. unfold Delete.
  rewrite bind_run, stm_Get_run. cbn [fst snd].
  by rewrite bool_decide_eq_true_2.
Qed.

(** C1: on a collection with a declared index list, [Put] is the [Put]
    of the specification: the indexes are processed in declaration order,
    each one by deleting the prior index path when a readable prior
    record yields a different one and by writing the back-reference when
    the new index path does not resolve to a value yet, and the record is
    written to the primary path after all of them. *)
Theorem Put_refines_spec (c : collection) (declared : list Index)
    (key : string) (record : M) (st : stm_state) :
  indexes c = Some declared ->
  Put c key record st = (tt, Put_spec c declared key record st).
Proof. intros Hdecl. rewrite Put_run, Hdecl. reflexivity. Qed.

(** C3, amended: any failure of the read of the prior record, not found
    or otherwise, is treated as "no prior index entry": the loop body
    deletes nothing and goes on to add the new index entry. *)
Theorem Put_index_read_failure (c : collection) (key : string) (record : M)
    (index : Index) (st : stm_state) (e : error) :
  (Get (M := M) c key st).1 = inr e ->
  treated_as_no_prior c key record index st.
Proof.
  intros Hfail. unfold treated_as_no_prior.
  rewrite Put_index_run. unfold process_index, drop_prior.
  by rewrite (Get_fails_no_prior c key st e Hfail).
Qed.

(** C6: when the primary path holds a value (the transaction reads a
    non-empty text there), [Create] fails with [ErrExists] and changes
    nothing; when it holds none, [Create] is [Put]; and a second [Create]
    after a first one that stored a non-empty text fails and leaves the
    first record's text in place. *)
Theorem Create_exists_or_Put (c : collection) (key : string) (r1 r2 : M)
    (st : stm_state) :
  (resolve st (path c key) <> "" ->
   Create c key r2 st = (Some (ErrExists (prefix c) key), st))
  /\ (resolve st (path c key) = "" ->
      Create c key r2 st = (None, (Put c key r2 st).2))
  /\ (resolve st (path c key) = "" -> String_ r1 <> "" ->
      let st1 := (Create c key r1 st).2 in
      Create c key r2 st1 = (Some (ErrExists (prefix c) key), st1)
      /\ resolve st1 (path c key) = String_ r1).
Proof.
  repeat split.
  - intros Hheld. rewrite Create_run. by rewrite bool_decide_eq_true_2.
  - intros Habsent. rewrite Create_run.
    by rewrite bool_decide_eq_false_2 by (intros Hne; by apply Hne).
  - rewrite (Create_run c key r1).
    rewrite bool_decide_eq_false_2 by (intros Hne; by apply Hne).
    cbn [snd]. rewrite Create_run, resolve_Put.
    by rewrite bool_decide_eq_true_2.
  - rewrite (Create_run c key r1).
    rewrite bool_decide_eq_false_2 by (intros Hne; by apply Hne).
    apply resolve_Put.
Qed.

(** C9: a key whose stored text is empty is absent for the view: [Get]
    and [Delete] fail with [ErrNotFound] and [Create] goes through; and
    this is the state [Put] leaves for a record whose text is empty. *)
Theorem empty_text_is_absence (c : collection) (key : string) (r : M)
    (vals : list M) (st : stm_state) :
  (resolve st (path c key) = "" ->
   Get (M := M) c key st = (inr (ErrNotFound (prefix c) key), st)
   /\ Create c key r st = (None, (Put c key r st).2)
   /\ Delete c key vals st = (Some (ErrNotFound (prefix c) key), st))
  /\ (forall (r0 : M) (st0 : stm_state),
        String_ r0 = "" ->
        resolve (Put c key r0 st0).2 (path c key) = "").
Proof.
  split.
  - intros Habsent. repeat split.
    + rewrite Get_run. by rewrite bool_decide_eq_true_2.
    + rewrite Create_run.
      by rewrite bool_decide_eq_false_2 by (intros Hne; by apply Hne).
    + by apply Delete_run_absent.
  - intros r0 st0 Hempty. by rewrite resolve_Put.
Qed.

(** C10, amended: [Delete] of a present key without a record value, or
    on a collection without index list, issues one write, the deletion of
    the primary path; every other path keeps what it held, and so does
    every index entry of the layout: one whose index path is a clean
    path, with a non-empty key, under a prefix that ends with the
    separator, when the primary path of the deleted key is a clean path
    of a non-empty key too. *)
Theorem Delete_without_record (c : collection) (key : string)
    (vals : list M) (st : stm_state) :
  resolve st (path c key) <> "" ->
  vals = [] \/ indexes c = None ->
  let st' := (Delete c key vals st).2 in
  (Delete c key vals st).1 = None
  /\ wlog st' = wlog st ++ [OpDel (path c key)]
  /\ kvs st' !! path c key = None
  /\ (forall p : string, p <> path c key -> kvs st' !! p = kvs st !! p)
  /\ (forall index indexVal key' : string,
        GoStrings.ends_with_slash (prefix c) = true ->
        key <> "" -> key' <> "" ->
        GoPath.Clean (PathSpec.primary_path (prefix c) key)
        = PathSpec.primary_path (prefix c) key ->
        GoPath.Clean (PathSpec.index_path (prefix c) index indexVal key')
        = PathSpec.index_path (prefix c) index indexVal key' ->
        kvs st' !! indexPath c index indexVal key'
        = kvs st !! indexPath c index indexVal key').
Proof.
  intros Hpresent Hnoindex.
  assert (Hrun : Delete c key vals st = (None, remove (path c key) st)).
  { unfold Delete. rewrite bind_run, stm_Get_run. cbn [fst snd].
    rewrite bool_decide_eq_false_2 by done.
    rewrite bind_run.
    destruct Hnoindex as [-> | ->]; [destruct (indexes c)|]; reflexivity. }
  rewrite Hrun. cbn [fst snd].
  assert (Hframe : forall p : string, p <> path c key ->
                     kvs (remove (path c key) st) !! p = kvs st !! p).
  { intros p Hp. unfold remove. simpl. by apply lookup_delete_ne. }
  split; [reflexivity|]. split; [reflexivity|]. split; [|split].
  - unfold remove. simpl. apply lookup_delete_eq.
  - exact Hframe.
  - intros index indexVal key' Hslash Hkey Hkey' Hc1 Hc2.
    apply Hframe. by apply PathTheorems.indexPath_ne_path.
Qed.

End Runs.

Import Job.

Lemma Put_refines_spec_witness :
  Put jobs "j1" {| State := "running" |} empty_stm
  = (tt, Put_spec jobs ["State"] "j1" {| State := "running" |} empty_stm).
Proof. apply Put_refines_spec. reflexivity. Defined.

(** The read of the prior record fails with a parse error, and [Put]
    runs to its end all the same: the writes are those for a fresh key
    and the entry of the former record stays. *)
Example Put_on_garbled :
  (Get (M := JobInfo) jobs "j1" garbled_stm).1 = inr (ErrProto "unknown field")
  /\ wlog (Put jobs "j1" {| State := "done" |} garbled_stm).2
     = [OpPut "jobs__index_State/done/j1" "j1"; OpPut "jobs/j1" "State:done"]
  /\ kvs (Put jobs "j1" {| State := "done" |} garbled_stm).2
       !! "jobs__index_State/running/j1" = Some "j1".
Proof. vm_compute. auto. Qed.

(** C3, as stated, fails: a parse failure of the stored record is
    treated as "no prior index entry" too. *)
Lemma Put_swallows_parse_failure :
  ~ (forall (c : collection) (key : string) (record : JobInfo)
            (index : Index) (st : stm_state) (e : error),
        (Get (M := JobInfo) c key st).1 = inr e ->
        treated_as_no_prior c key record index st ->
        exists t k, e = ErrNotFound t k).
Proof.
  intros Hall.
  destruct (Hall jobs "j1" {| State := "done" |} "State" garbled_stm
              (ErrProto "unknown field")) as (t & k & Habs).
  - reflexivity.
  - vm_compute. reflexivity.
  - discriminate Habs.
Qed.

Lemma Put_index_read_failure_witness :
  treated_as_no_prior jobs "j1" {| State := "done" |} "State" garbled_stm.
Proof.
  apply (Put_index_read_failure jobs "j1" {| State := "done" |} "State"
           garbled_stm (ErrProto "unknown field")).
  reflexivity.
Defined.

Lemma Create_exists_or_Put_witness :
  Create jobs "j1" {| State := "done" |} running_stm
  = (Some (ErrExists "jobs/" "j1"), running_stm)
  /\ Create jobs "j2" {| State := "done" |} running_stm
     = (None, (Put jobs "j2" {| State := "done" |} running_stm).2)
  /\ (Create jobs "j1" {| State := "done" |} running_stm
      = (Some (ErrExists "jobs/" "j1"), running_stm)
      /\ resolve running_stm (path jobs "j1") = "State:running").
Proof.
  split; [|split].
  - apply (proj1 (Create_exists_or_Put jobs "j1" {| State := "running" |}
                    {| State := "done" |} running_stm)).
    vm_compute. discriminate.
  - apply (proj1 (proj2 (Create_exists_or_Put jobs "j2"
                           {| State := "running" |} {| State := "done" |}
                           running_stm))).
    reflexivity.
  - refine (proj2 (proj2 (Create_exists_or_Put jobs "j1"
                            {| State := "running" |} {| State := "done" |}
                            empty_stm)) _ _).
    + reflexivity.
    + vm_compute. discriminate.
Defined.

Lemma empty_text_is_absence_witness :
  let st := (Put jobs "j1" {| State := "" |} empty_stm).2 in
  Get (M := JobInfo) jobs "j1" st = (inr (ErrNotFound "jobs/" "j1"), st)
  /\ Create jobs "j1" {| State := "done" |} st
     = (None, (Put jobs "j1" {| State := "done" |} st).2)
  /\ Delete jobs "j1" [{| State := "" |}] st
     = (Some (ErrNotFound "jobs/" "j1"), st).
Proof.
  intros st.
  destruct (empty_text_is_absence jobs "j1" {| State := "done" |}
              [{| State := "" |}] st) as [Habsent Hput].
  apply Habsent. apply Hput. reflexivity.
Defined.

(** C10, as stated, fails: the primary path of a key that is not escaped
    can be an index path.  [Delete] of the key
    ["../jobs__index_State/running/j1"], which is present, removes the
    index entry of ["j1"]. *)
Lemma Delete_removes_index_entry :
  ~ (forall (c : collection) (key : string) (vals : list JobInfo)
            (st : stm_state),
        resolve st (path c key) <> "" ->
        vals = [] \/ indexes c = None ->
        forall index indexVal key' : string,
          kvs (Delete c key vals st).2 !! indexPath c index indexVal key'
          = kvs st !! indexPath c index indexVal key').
Proof.
  intros Hall.
  specialize (Hall jobs "../jobs__index_State/running/j1" [] running_stm).
  assert (Hpresent : resolve running_stm
                       (path jobs "../jobs__index_State/running/j1") <> "")
    by (vm_compute; discriminate).
  specialize (Hall Hpresent (or_introl eq_refl) "State" "running" "j1").
  vm_compute in Hall. discriminate Hall.
Qed.

Lemma Delete_without_record_witness :
  let st' := (Delete (M := JobInfo) jobs "j1" [] running_stm).2 in
  (Delete (M := JobInfo) jobs "j1" [] running_stm).1 = None
  /\ wlog st' = wlog running_stm ++ [OpDel "jobs/j1"]
  /\ kvs st' !! "jobs/j1" = None
  /\ kvs st' !! indexPath jobs "State" "running" "j1" = Some "j1".
Proof.
  assert (Hpresent : resolve running_stm (path jobs "j1") <> "")
    by (vm_compute; discriminate).
  destruct (Delete_without_record (M := JobInfo) jobs "j1" [] running_stm
              Hpresent (or_introl eq_refl))
    as (Hok & Hlog & Hgone & _ & Hindex).
  refine (conj Hok (conj Hlog (conj Hgone _))).
  rewrite (Hindex "State" "running" "j1");
    [reflexivity | reflexivity | discriminate | discriminate
     | reflexivity | reflexivity].
Defined.

End ReadWriteTheorems.

(** ** The integer view *)

Module ReadWriteIntTheorems.
Import GoStrconv ReadWriteInt PutSpec ReadWriteTheorems Job.

Lemma IntGet_run (c : collection) (key : string) (st : stm_state) :
  Get c key st
  = (if bool_decide (resolve st (path c key) = "")
     then inr (ErrNotFound (prefix c) key)
     else match Atoi (resolve st (path c key)) with
          | inl n => inl n
          | inr e => inr (ErrNum (resolve st (path c key)) e)
          end, st).
Proof.
  unfold Get. rewrite bind_run, stm_Get_run. cbn [fst snd].
  by case_bool_decide.
Qed.

(** The absent half of the claim holds. *)
Lemma IntGet_absent (c : collection) (key : string) (st : stm_state) :
  resolve st (path c key) = "" ->
  Get c key st = (inr (ErrNotFound (prefix c) key), st).
Proof. intros Habsent. rewrite IntGet_run. by rewrite bool_decide_eq_true_2. Qed.

(** [Get] never fails with [ErrMalformedValue]. *)
Lemma IntGet_never_malformed (c : collection) (key : string)
    (st : stm_state) (t k v : string) :
  (Get c key st).1 <> inr (ErrMalformedValue t k v).
Proof.
  rewrite IntGet_run. cbn [fst].
  case_bool_decide; [discriminate|].
  destruct (Atoi _); discriminate.
Qed.

(** [Increment] and [Decrement] do report an unparsable text as
    [ErrMalformedValue]. *)
Lemma Increment_malformed (c : collection) (key : string) (st : stm_state)
    (e : num_error) :
  resolve st (path c key) <> "" ->
  Atoi (resolve st (path c key)) = inr e ->
  Increment c key st
  = (Some (ErrMalformedValue (prefix c) key (resolve st (path c key))), st)
  /\ Decrement c key st
     = (Some (ErrMalformedValue (prefix c) key (resolve st (path c key))), st).
Proof.
  intros Hpresent Hbad. unfold Increment, Decrement.
  rewrite !bind_run, stm_Get_run. cbn [fst snd].
  rewrite bool_decide_eq_false_2 by done.
  by rewrite Hbad.
Qed.

(** C2: for the stored text ["abc"], [Get] of the integer view fails with
    the error of [strconv.Atoi], not with [ErrMalformedValue], while
    [Increment] on the same state fails with [ErrMalformedValue]. *)
Theorem IntGet_returns_Atoi_error :
  Get counters "k" malformed_stm = (inr (ErrNum "abc" ErrSyntax), malformed_stm)
  /\ Increment counters "k" malformed_stm
     = (Some (ErrMalformedValue "counters/" "k" "abc"), malformed_stm).
Proof. split; reflexivity. Qed.

End ReadWriteIntTheorems.

(** ** The last element of an index path *)

Module BaseFacts.
Import GoStrings GoPath PathFacts.

Lemma split_no_slash (k : string) : no_slash k = true -> split_slash k = [k].
Proof.
  induction k as [|ch k IH]; [reflexivity|].
  simpl. intros [Hch Hk]%andb_true_iff.
  apply negb_true_iff in Hch. rewrite Hch, (IH Hk). reflexivity.
Qed.

Lemma TrimRight_no_slash (k : string) :
  no_slash k = true -> TrimRight_slash k = k.
Proof.
  induction k as [|ch k IH]; [reflexivity|].
  simpl. intros [Hch Hk]%andb_true_iff.
  apply negb_true_iff in Hch. rewrite Hch, (IH Hk). reflexivity.
Qed.

Lemma TrimRight_app_no_slash (a k : string) :
  k <> "" -> no_slash k = true -> TrimRight_slash (a +:+ k) = a +:+ k.
Proof.
  intros Hne Hk. induction a as [|ch a IH].
  - rewrite app_empty_l. by apply TrimRight_no_slash.
  - rewrite app_String. simpl. rewrite IH.
    rewrite (bool_decide_eq_false_2 (a +:+ k = "")).
    + by rewrite andb_false_r.
    + intros Heq. destruct a; [by rewrite app_empty_l in Heq | discriminate].
Qed.

Lemma join_slash_snoc (l : list string) (k : string) :
  l <> [] -> join_slash (l ++ [k]) = join_slash l +:+ "/" +:+ k.
Proof.
  induction l as [|x l IH]; [done|]. intros _.
  destruct l as [|y l]; [reflexivity|].
  change (join_slash ((x :: y :: l) ++ [k]))
    with (x +:+ "/" +:+ join_slash ((y :: l) ++ [k])).
  rewrite IH by done.
  change (join_slash (x :: y :: l)) with (x +:+ "/" +:+ join_slash (y :: l)).
  by rewrite !app_assoc_str.
Qed.

Lemma clean_step_simple (r : bool) (out : list string) (k : string) :
  simple_key k = true -> clean_step r out k = k :: out.
Proof.
  unfold simple_key, clean_step.
  intros [[[H1 _]%andb_true_iff H2]%andb_true_iff H3]%andb_true_iff.
  apply negb_true_iff in H1, H2, H3. by rewrite H1, H2, H3.
Qed.

Lemma simple_key_facts (k : string) :
  simple_key k = true -> k <> "" /\ no_slash k = true.
Proof.
  unfold simple_key.
  intros [[[H1 H0]%andb_true_iff _]%andb_true_iff _]%andb_true_iff.
  split; [|done]. apply negb_true_iff in H1. by apply bool_decide_eq_false in H1.
Qed.

(** The last element of a path that ends with a separator and a simple
    key is that key. *)
Lemma Base_app_simple (a k : string) :
  simple_key k = true -> Base (a +:+ String slash k) = k.
Proof.
  intros Hk. destruct (simple_key_facts k Hk) as [Hne Hns].
  unfold Base. rewrite bool_decide_eq_false_2 by apply app_not_empty.
  change (a +:+ String slash k) with (a +:+ "/" +:+ k).
  rewrite <- app_assoc_str, TrimRight_app_no_slash by done.
  rewrite app_assoc_str.
  change (a +:+ "/" +:+ k) with (a +:+ String slash k).
  rewrite split_slash_app, (split_no_slash k) by done.
  rewrite last_last. by rewrite bool_decide_eq_false_2.
Qed.

Lemma Base_simple (k : string) : simple_key k = true -> Base k = k.
Proof.
  intros Hk. destruct (simple_key_facts k Hk) as [Hne Hns].
  unfold Base. rewrite bool_decide_eq_false_2 by done.
  rewrite TrimRight_no_slash, split_no_slash by done.
  simpl. by rewrite bool_decide_eq_false_2.
Qed.

(** Cleaning a path that ends with a simple key keeps that key as its
    last element. *)
Lemma Base_Clean_simple (a k : string) :
  simple_key k = true -> Base (Clean (a +:+ String slash k)) = k.
Proof.
  intros Hk. unfold Clean.
  rewrite bool_decide_eq_false_2 by apply app_not_empty.
  set (r := rooted (a +:+ String slash k)).
  rewrite split_slash_app, fold_left_app.
  rewrite (split_no_slash k) by (by apply simple_key_facts).
  cbn [fold_left]. rewrite clean_step_simple by done.
  set (out := fold_left _ (split_slash a) []).
  cbv beta iota.
  change (rev (k :: out)) with (rev out ++ [k]).
  destruct (rev out) as [|x l] eqn:Hrev.
  - rewrite app_nil_l. cbn [join_slash]. destruct r.
    + by apply (Base_app_simple "").
    + rewrite app_empty_l. by apply Base_simple.
  - rewrite join_slash_snoc by done.
    rewrite <- app_assoc_str.
    by apply Base_app_simple.
Qed.

(** The last element of the index path of a simple key is the key: what
    the iterator and the translator read off an index entry is the
    back-reference [Put] stored in it. *)
Lemma Base_indexPath (c : collection) (index : Index) (indexVal key : string) :
  simple_key key = true ->
  Base (indexPath c index indexVal key) = key.
Proof.
  intros Hk. unfold indexPath, indexDir.
  rewrite PathTheorems.path_Join_nonempty by apply app_not_empty.
  by apply Base_Clean_simple.
Qed.

End BaseFacts.

(** ** The read-only view *)

Module ReadonlyTheorems.
Import GoStrings GoPath Readonly Job.

Section Iterator.
Context {M : Type} `{!Message M}.

Lemma Get_absent (cl : etcdClient) (c : collection) (key : string) :
  etcd_Get cl (path c key) = inl [] ->
  Get (M := M) cl c key = inr (ErrNotFound (prefix c) key).
Proof. intros Hresp. unfold Get. by rewrite Hresp. Qed.

(** A failing step hands on the error of its point read. *)
Lemma Next_fails_with_Get (cl : etcdClient) (i : indirectIterator)
    (kv : KeyValue) (e : error) :
  resp i !! index i = Some kv ->
  Get (M := M) cl (col i) (Base (Key kv)) = inr e ->
  ok (Next (M := M) cl i) = false /\ retErr (Next (M := M) cl i) = Some e.
Proof. intros Hkv Hget. unfold Next. by rewrite Hkv, Hget. Qed.

(** A step never goes past the entry it fails on: the iterator moves by
    one entry whatever the outcome. *)
Lemma Next_moves_by_one (cl : etcdClient) (i : indirectIterator)
    (kv : KeyValue) :
  resp i !! index i = Some kv ->
  iter (Next (M := M) cl i)
  = {| index := index i + 1; resp := resp i; col := col i |}.
Proof. intros Hkv. unfold Next. rewrite Hkv. by destruct (Get _ _ _). Qed.

(** C7, amended: the [n]-th step of the iterator that [GetByIndex]
    returns takes the key from the last element of the path of the
    [n]-th index entry, which is the back-reference when the key is one
    path element, and reads the record of that key from the store as it
    is at that step ([cl], not the store [cl0] of the range read).  When
    the record is absent there the step returns [ok = false] with the
    [ErrNotFound] of that read and yields no record; when the store fails
    it returns that error; when the record is found it yields it.  In
    every case the iterator is left on the next entry, so a further step
    goes on with that entry. *)
Theorem Next_reads_last_element (cl0 cl : etcdClient) (c : collection)
    (ix : Index) (v : string) (it : indirectIterator) (n : nat)
    (kv : KeyValue) :
  GetByIndex cl0 c ix v = inl it ->
  resp it !! n = Some kv ->
  let i := {| index := n; resp := resp it; col := col it |} in
  let i' := {| index := n + 1; resp := resp it; col := col it |} in
  let key := Base (Key kv) in
  (forall k : string,
      simple_key k = true -> Key kv = indexPath c ix v k -> key = k)
  /\ (etcd_Get cl (path c key) = inl [] ->
      Next (M := M) cl i
      = {| ok := false; retErr := Some (ErrNotFound (prefix c) key);
           key_out := Some key; val_out := None; iter := i' |})
  /\ (forall err : string,
        etcd_Get cl (path c key) = inr err ->
        Next (M := M) cl i
        = {| ok := false; retErr := Some (ErrStore err);
             key_out := Some key; val_out := None; iter := i' |})
  /\ (forall (found : KeyValue) (more : list KeyValue) (r : M),
        etcd_Get cl (path c key) = inl (found :: more) ->
        UnmarshalText (Value found) = inl r ->
        Next (M := M) cl i
        = {| ok := true; retErr := None;
             key_out := Some key; val_out := Some r; iter := i' |})
  /\ (forall (cl' : etcdClient) (kv' : KeyValue),
        resp it !! (n + 1) = Some kv' ->
        key_out (Next (M := M) cl' (iter (Next (M := M) cl i)))
        = Some (Base (Key kv'))).
Proof.
  intros Hit Hkv i i' key.
  assert (Hcol : c = col it).
  { unfold GetByIndex in Hit.
    destruct (etcd_GetPrefix cl0 _); [|discriminate].
    by injection Hit as <-. }
  clear Hit. subst c.
  assert (Hstep : forall res : M + error,
             Get (M := M) cl (col it) key = res ->
             Next (M := M) cl i
             = match res with
               | inr err => {| ok := false; retErr := Some err;
                               key_out := Some key; val_out := None;
                               iter := i' |}
               | inl val => {| ok := true; retErr := None;
                               key_out := Some key; val_out := Some val;
                               iter := i' |}
               end).
  { intros res <-. unfold Next, i. cbn [index resp col].
    rewrite Hkv. fold key. by destruct (Get cl (col it) key). }
  split; [|split; [|split; [|split]]].
  - intros k Hk Hkey. unfold key. rewrite Hkey.
    by apply BaseFacts.Base_indexPath.
  - intros Habsent. apply (Hstep (inr _)). by apply Get_absent.
  - intros err Hfail. apply (Hstep (inr _)). unfold Get. by rewrite Hfail.
  - intros found more r Hfound Hparse. apply (Hstep (inl r)).
    unfold Get. by rewrite Hfound, Hparse.
  - intros cl' kv' Hnext.
    rewrite (Hstep _ eq_refl).
    assert (Hiter : iter (match Get (M := M) cl (col it) key with
                          | inr err => {| ok := false; retErr := Some err;
                                          key_out := Some key; val_out := None;
                                          iter := i' |}
                          | inl val => {| ok := true; retErr := None;
                                          key_out := Some key;
                                          val_out := Some val; iter := i' |}
                          end) = i') by (by destruct (Get cl (col it) key)).
    rewrite Hiter. unfold Next, i'. cbn [index resp col]. rewrite Hnext.
    by destruct (Get cl' _ _).
Qed.

End Iterator.

(** C7, as stated, fails: the step does not read the back-reference.
    For the index entry of the key ["a/j1"], whose record is absent, the
    step reads the key ["j1"] and answers with that record. *)
Lemma Next_ignores_back_reference :
  ~ (forall (cl : etcdClient) (i : indirectIterator) (kv : KeyValue)
            (ix : Index) (v : string),
        resp i !! index i = Some kv ->
        Key kv = indexPath (col i) ix v (Value kv) ->
        etcd_Get cl (path (col i) (Value kv)) = inl [] ->
        ok (Next (M := JobInfo) cl i) = false
        /\ retErr (Next (M := JobInfo) cl i)
           = Some (ErrNotFound (prefix (col i)) (Value kv))).
Proof.
  intros Hall.
  destruct (Hall (live {[ "jobs/j1" := "State:running" ]})
              {| index := 0;
                 resp := [{| Key := "jobs__index_State/done/a/j1";
                             Value := "a/j1" |}];
                 col := jobs |}
              {| Key := "jobs__index_State/done/a/j1"; Value := "a/j1" |}
              "State" "done") as [Hok _].
  - reflexivity.
  - reflexivity.
  - reflexivity.
  - vm_compute in Hok. discriminate Hok.
Qed.

(** The index directory holds the entries of ["j1"] and ["j2"]; the
    record of ["j1"] is gone by the time the iterator reads it, and is
    there at another time. *)
Lemma Next_reads_last_element_witness :
  let entries := [{| Key := "jobs__index_State/running/j1"; Value := "j1" |};
                  {| Key := "jobs__index_State/running/j2"; Value := "j2" |}] in
  let i := {| index := 0; resp := entries; col := jobs |} in
  let i' := {| index := 1; resp := entries; col := jobs |} in
  Next (M := JobInfo) (live ∅) i
  = {| ok := false; retErr := Some (ErrNotFound "jobs/" "j1");
       key_out := Some "j1"; val_out := None; iter := i' |}
  /\ Next (M := JobInfo) (live {[ "jobs/j1" := "State:running" ]}) i
     = {| ok := true; retErr := None;
          key_out := Some "j1"; val_out := Some {| State := "running" |};
          iter := i' |}
  /\ key_out (Next (M := JobInfo) (live ∅)
                (iter (Next (M := JobInfo) (live ∅) i)))
     = Some "j2".
Proof.
  intros entries i i'.
  pose (cl0 := {| etcd_Get := fun _ => inr "unused";
                  etcd_GetPrefix := fun _ => inl entries |}).
  destruct (Next_reads_last_element (M := JobInfo) cl0 (live ∅) jobs "State"
              "running" i 0
              {| Key := "jobs__index_State/running/j1"; Value := "j1" |}
              eq_refl eq_refl) as (_ & Habsent & _ & _ & Hfurther).
  destruct (Next_reads_last_element (M := JobInfo) cl0
              (live {[ "jobs/j1" := "State:running" ]}) jobs "State"
              "running" i 0
              {| Key := "jobs__index_State/running/j1"; Value := "j1" |}
              eq_refl eq_refl) as (_ & _ & _ & Hfound & _).
  exact (conj (Habsent eq_refl)
           (conj (Hfound {| Key := "jobs/j1"; Value := "State:running" |} []
                    {| State := "running" |} eq_refl eq_refl)
              (Hfurther (live ∅)
                 {| Key := "jobs__index_State/running/j2"; Value := "j2" |}
                 eq_refl))).
Defined.

End ReadonlyTheorems.

(** ** The translator of [WatchByIndex] *)

Module WatchTheorems.
Import GoStrings GoPath Watch Job.

(** C8, amended: the translator takes the key from the last element of
    the key of the indirect event, which is the referenced primary key
    when that key is one path element.  An indirect put event whose
    point read of that key fails ends the output with an error event and
    the channel closed, whatever follows upstream; one whose read finds
    no key adds nothing and the task goes on with the rest; one whose
    read finds the key sends a put event with that key and the value
    read; an indirect delete event sends a delete event with that key
    and no value. *)
Theorem WatchByIndex_translates_last_element (c : collection)
    (cl : etcdClient) (ev : Event) (upstream : list (etcdClient * Event)) :
  let key := Base (ev_Key ev) in
  let rest := WatchByIndex c upstream in
  let out := WatchByIndex c ((cl, ev) :: upstream) in
  (forall (ix : Index) (v k : string),
      simple_key k = true -> ev_Key ev = indexPath c ix v k -> key = k)
  /\ (ev_Type ev = EventPut ->
      (forall err : string,
          etcd_Get cl (path c key) = inr err ->
          sent out = [error_event (ErrStore err)] /\ closed out = true)
      /\ (etcd_Get cl (path c key) = inl [] ->
          sent out = sent rest /\ closed out = closed rest)
      /\ (forall (kv : KeyValue) (more : list KeyValue),
            etcd_Get cl (path c key) = inl (kv :: more) ->
            sent out = put_event key (Value kv) :: sent rest
            /\ closed out = closed rest))
  /\ (ev_Type ev = EventDelete ->
      sent out = delete_event key :: sent rest
      /\ closed out = closed rest).
Proof.
  intros key rest out. split; [|split].
  - intros ix v k Hk Hkey. unfold key. rewrite Hkey.
    by apply BaseFacts.Base_indexPath.
  - intros Hput. unfold out, rest, key. cbn [WatchByIndex]. unfold translate.
    rewrite Hput. split; [|split].
    + intros err Hread. by rewrite Hread.
    + intros Hread. by rewrite Hread.
    + intros kv more Hread. by rewrite Hread.
  - intros Hdel. unfold out, rest, key. cbn [WatchByIndex]. unfold translate.
    by rewrite Hdel.
Qed.

(** C8, as stated, fails: the key is not the referenced primary key for
    a key with a separator.  The put event of the index entry of
    ["a/j1"], whose record the store holds, is dropped, because the
    translator reads the key ["j1"]; and the delete event of that entry
    is sent with the key ["j1"]. *)
Lemma WatchByIndex_ignores_referenced_key :
  ~ (forall (c : collection) (cl : etcdClient) (ev : Event)
            (upstream : list (etcdClient * Event)) (ix : Index)
            (v key : string),
        ev_Key ev = indexPath c ix v key ->
        (ev_Type ev = EventPut ->
         (forall err : string,
             etcd_Get cl (path c key) = inr err ->
             sent (WatchByIndex c ((cl, ev) :: upstream))
             = [error_event (ErrStore err)]
             /\ closed (WatchByIndex c ((cl, ev) :: upstream)) = true)
         /\ (etcd_Get cl (path c key) = inl [] ->
             sent (WatchByIndex c ((cl, ev) :: upstream))
             = sent (WatchByIndex c upstream))
         /\ (forall (kv : KeyValue) (more : list KeyValue),
               etcd_Get cl (path c key) = inl (kv :: more) ->
               sent (WatchByIndex c ((cl, ev) :: upstream))
               = put_event key (Value kv) :: sent (WatchByIndex c upstream)))
        /\ (ev_Type ev = EventDelete ->
            sent (WatchByIndex c ((cl, ev) :: upstream))
            = delete_event key :: sent (WatchByIndex c upstream))).
Proof.
  intros Hall.
  destruct (Hall jobs (live {[ "jobs/a/j1" := "State:done" ]})
              (put_event "jobs__index_State/done/a/j1" "a/j1") []
              "State" "done" "a/j1" eq_refl) as [Hput _].
  destruct (Hput eq_refl) as (_ & _ & Hfound).
  specialize (Hfound {| Key := "jobs/a/j1"; Value := "State:done" |} []
                eq_refl).
  vm_compute in Hfound. discriminate Hfound.
Qed.

Example WatchByIndex_nested_delete :
  sent (WatchByIndex jobs
          [(live ∅, delete_event "jobs__index_State/done/a/j1")])
  = [delete_event "j1"].
Proof. reflexivity. Qed.

(** The translator on a run: the record of ["j1"] is found, that of
    ["j2"] is gone when its event is handled, ["j1"] is deleted, and the
    store fails on the event of ["j3"]; the event after that is never
    looked at. *)
Example WatchByIndex_run :
  WatchByIndex jobs
    [(live {[ "jobs/j1" := "State:running" ]},
      put_event "jobs__index_State/running/j1" "j1");
     (live {[ "jobs/j1" := "State:running" ]},
      put_event "jobs__index_State/running/j2" "j2");
     (live ∅, delete_event "jobs__index_State/running/j1");
     (down, put_event "jobs__index_State/running/j3" "j3");
     (live ∅, delete_event "jobs__index_State/running/j3")]
  = {| sent := [put_event "j1" "State:running"; delete_event "j1";
                error_event (ErrStore "unavailable")];
       closed := true |}.
Proof. vm_compute. reflexivity. Qed.

Lemma WatchByIndex_translates_last_element_witness :
  let found := live {[ "jobs/j1" := "State:running" ]} in
  let put1 := put_event "jobs__index_State/running/j1" "j1" in
  let del1 := delete_event "jobs__index_State/running/j1" in
  (sent (WatchByIndex jobs [(down, put1); (found, put1)])
   = [error_event (ErrStore "unavailable")]
   /\ closed (WatchByIndex jobs [(down, put1); (found, put1)]) = true)
  /\ sent (WatchByIndex jobs [(live ∅, put1); (found, put1)])
     = sent (WatchByIndex jobs [(found, put1)])
  /\ sent (WatchByIndex jobs [(found, put1)])
     = put_event "j1" "State:running" :: sent (WatchByIndex jobs [])
  /\ sent (WatchByIndex jobs [(found, del1)])
     = delete_event "j1" :: sent (WatchByIndex jobs []).
Proof.
  intros found put1 del1.
  destruct (WatchByIndex_translates_last_element jobs down put1
              [(found, put1)]) as (_ & Hdown & _).
  destruct (WatchByIndex_translates_last_element jobs (live ∅) put1
              [(found, put1)]) as (_ & Hgone & _).
  destruct (WatchByIndex_translates_last_element jobs found put1 [])
    as (_ & Hfound & _).
  destruct (WatchByIndex_translates_last_element jobs found del1 [])
    as (_ & _ & Hdel).
  refine (conj (proj1 (Hdown eq_refl) "unavailable" eq_refl)
            (conj (proj1 (proj1 (proj2 (Hgone eq_refl)) eq_refl))
               (conj (proj1 (proj2 (proj2 (Hfound eq_refl))
                               {| Key := "jobs/j1"; Value := "State:running" |}
                               [] eq_refl))
                  (proj1 (Hdel eq_refl))))).
Defined.

End WatchTheorems.

(** ** Index maintenance *)

Module IndexTheorems.
Import ReadWrite PutSpec ReadWriteTheorems Layout.

Section Index.
Context {M : Type} `{!Message M}.

Lemma resolve_write_ne (p q v : string) (st : stm_state) :
  p <> q -> resolve (write q v st) p = resolve st p.
Proof. intros Hne. unfold resolve, write. simpl. by rewrite lookup_insert_ne. Qed.

Lemma resolve_remove (p : string) (st : stm_state) :
  resolve (remove p st) p = "".
Proof. unfold resolve, remove. simpl. by rewrite lookup_delete_eq. Qed.

Lemma resolve_remove_ne (p q : string) (st : stm_state) :
  p <> q -> resolve (remove q st) p = resolve st p.
Proof. intros Hne. unfold resolve, remove. simpl. by rewrite lookup_delete_ne. Qed.

(** The prior record depends on the text at the primary path only. *)
Lemma prior_record_ext (c : collection) (key : string) (st st' : stm_state) :
  resolve st' (path c key) = resolve st (path c key) ->
  prior_record (M := M) c key st' = prior_record c key st.
Proof. intros Heq. unfold prior_record. by rewrite Heq. Qed.

Lemma add_new_frame (c : collection) (key : string) (record : M)
    (ix : Index) (st : stm_state) (p : string) :
  p <> index_path_of c ix record key ->
  resolve (add_new c key record ix st) p = resolve st p.
Proof.
  intros Hne. unfold add_new. case_bool_decide; [|reflexivity].
  by apply resolve_write_ne.
Qed.

Lemma add_new_entry (c : collection) (key : string) (record : M)
    (ix : Index) (st : stm_state) :
  resolve (add_new c key record ix st) (index_path_of c ix record key)
  = if bool_decide (resolve st (index_path_of c ix record key) = "")
    then key else resolve st (index_path_of c ix record key).
Proof.
  unfold add_new. case_bool_decide; [|reflexivity].
  apply resolve_write.
Qed.

Lemma drop_prior_frame (c : collection) (key : string) (record : M)
    (ix : Index) (st : stm_state) (p : string) :
  (forall r0 : M, prior_record c key st = Some r0 ->
                  p <> index_path_of c ix r0 key) ->
  resolve (drop_prior c key record ix st) p = resolve st p.
Proof.
  intros Hne. unfold drop_prior.
  destruct (prior_record c key st) as [r0|]; [|reflexivity].
  case_bool_decide; [reflexivity|].
  apply resolve_remove_ne. by apply Hne.
Qed.

Lemma drop_prior_new (c : collection) (key : string) (record : M)
    (ix : Index) (st : stm_state) :
  resolve (drop_prior c key record ix st) (index_path_of c ix record key)
  = resolve st (index_path_of c ix record key).
Proof.
  unfold drop_prior.
  destruct (prior_record c key st) as [r0|]; [|reflexivity].
  case_bool_decide as Hsame; [reflexivity|].
  apply resolve_remove_ne. congruence.
Qed.

Lemma drop_prior_old (c : collection) (key : string) (record r0 : M)
    (ix : Index) (st : stm_state) :
  prior_record c key st = Some r0 ->
  index_path_of c ix r0 key <> index_path_of c ix record key ->
  resolve (drop_prior c key record ix st) (index_path_of c ix r0 key) = "".
Proof.
  intros Hprior Hne. unfold drop_prior. rewrite Hprior.
  rewrite bool_decide_eq_false_2 by done. apply resolve_remove.
Qed.

(** One round of the loop leaves every path alone but the new index path
    and the index path of the prior record. *)
Lemma process_index_frame (c : collection) (key : string) (record : M)
    (ix : Index) (st : stm_state) (p : string) :
  p <> index_path_of c ix record key ->
  (forall r0 : M, prior_record c key st = Some r0 ->
                  p <> index_path_of c ix r0 key) ->
  resolve (process_index c key record st ix) p = resolve st p.
Proof.
  intros Hnew Hold. unfold process_index.
  rewrite add_new_frame by done. by apply drop_prior_frame.
Qed.

Lemma process_index_entry (c : collection) (key : string) (record : M)
    (ix : Index) (st : stm_state) :
  resolve (process_index c key record st ix) (index_path_of c ix record key)
  = if bool_decide (resolve st (index_path_of c ix record key) = "")
    then key else resolve st (index_path_of c ix record key).
Proof. unfold process_index. by rewrite add_new_entry, drop_prior_new. Qed.

Lemma process_index_old (c : collection) (key : string) (record r0 : M)
    (ix : Index) (st : stm_state) :
  prior_record c key st = Some r0 ->
  index_path_of c ix r0 key <> index_path_of c ix record key ->
  resolve (process_index c key record st ix) (index_path_of c ix r0 key) = "".
Proof.
  intros Hprior Hne. unfold process_index.
  rewrite add_new_frame by done. by apply drop_prior_old.
Qed.

Section Fold.
Variables (c : collection) (declared : list Index) (key : string)
          (record : M) (st0 : stm_state).
Hypothesis Hsep : separated c declared key record st0.

Lemma involved_prior (st : stm_state) (r0 : M) :
  primary_kept c key st0 st -> prior_record c key st = Some r0 ->
  involved c key record st0 r0.
Proof.
  intros Hkept Hprior. right.
  by rewrite <- (prior_record_ext c key st0 st Hkept).
Qed.

Lemma process_index_primary (st : stm_state) (ix : Index) :
  ix ∈ declared -> primary_kept c key st0 st ->
  primary_kept c key st0 (process_index c key record st ix).
Proof.
  intros Hix Hkept. unfold primary_kept in *. rewrite <- Hkept.
  destruct Hsep as [_ Hprim].
  apply process_index_frame.
  - intros Heq. by apply (Hprim ix record Hix (or_introl eq_refl)).
  - intros r0 Hprior Heq.
    by apply (Hprim ix r0 Hix (involved_prior st r0 Hkept Hprior)).
Qed.

Lemma fold_primary (l : list Index) (st : stm_state) :
  (forall x, x ∈ l -> x ∈ declared) -> primary_kept c key st0 st ->
  primary_kept c key st0 (fold_left (process_index c key record) l st).
Proof.
  revert st. induction l as [|x l IH]; intros st Hl Hkept; [exact Hkept|].
  simpl. apply IH.
  - intros y Hy. apply Hl. by right.
  - apply process_index_primary; [apply Hl; by left | exact Hkept].
Qed.

Lemma fold_entry (ix : Index) (l : list Index) (st : stm_state) :
  key <> "" -> ix ∈ declared ->
  (forall x, x ∈ l -> x ∈ declared) -> primary_kept c key st0 st ->
  resolve (fold_left (process_index c key record) l st)
          (index_path_of c ix record key)
  = if bool_decide (ix ∈ l)
    then (if bool_decide (resolve st (index_path_of c ix record key) = "")
          then key else resolve st (index_path_of c ix record key))
    else resolve st (index_path_of c ix record key).
Proof.
  intros Hkey Hix. revert st.
  induction l as [|x l IH]; intros st Hl Hkept.
  - cbn [fold_left]. by rewrite bool_decide_eq_false_2 by apply not_elem_of_nil.
  - cbn [fold_left]. rewrite IH;
      [| intros y Hy; apply Hl; by right
       | apply process_index_primary; [apply Hl; by left | exact Hkept]].
    destruct (decide (x = ix)) as [-> | Hne].
    + rewrite process_index_entry.
      rewrite (bool_decide_eq_true_2 (ix ∈ ix :: l)) by (by left).
      set (v := if bool_decide (resolve st _ = "") then key else _).
      assert (Hv : v <> "").
      { subst v.
        destruct (decide (resolve st (index_path_of c ix record key) = ""));
          [by rewrite bool_decide_eq_true_2 | by rewrite bool_decide_eq_false_2]. }
      rewrite (bool_decide_eq_false_2 (v = "")) by done.
      by destruct (bool_decide (ix ∈ l)).
    + assert (Hsame : resolve (process_index c key record st x)
                        (index_path_of c ix record key)
                      = resolve st (index_path_of c ix record key)).
      { destruct Hsep as [Hidx _]. apply process_index_frame.
        - apply Hidx; [done | apply Hl; by left | congruence
                       | by left | by left].
        - intros r0 Hprior.
          apply Hidx; [done | apply Hl; by left | congruence | by left |].
          by apply (involved_prior st). }
      rewrite Hsame.
      destruct (decide (ix ∈ l)) as [Hin | Hnin].
      * rewrite (bool_decide_eq_true_2 (ix ∈ x :: l)) by (by right).
        by rewrite (bool_decide_eq_true_2 (ix ∈ l)).
      * rewrite (bool_decide_eq_false_2 (ix ∈ x :: l))
          by (intros [? | ?]%elem_of_cons; congruence).
        by rewrite (bool_decide_eq_false_2 (ix ∈ l)).
Qed.

Lemma fold_old (ix : Index) (r0 : M) (l : list Index) (st : stm_state) :
  ix ∈ declared ->
  prior_record c key st0 = Some r0 ->
  index_path_of c ix r0 key <> index_path_of c ix record key ->
  (forall x, x ∈ l -> x ∈ declared) -> primary_kept c key st0 st ->
  resolve (fold_left (process_index c key record) l st)
          (index_path_of c ix r0 key)
  = if bool_decide (ix ∈ l) then ""
    else resolve st (index_path_of c ix r0 key).
Proof.
  intros Hix Hprior Hmoved. revert st.
  induction l as [|x l IH]; intros st Hl Hkept.
  - cbn [fold_left]. by rewrite bool_decide_eq_false_2 by apply not_elem_of_nil.
  - cbn [fold_left]. rewrite IH;
      [| intros y Hy; apply Hl; by right
       | apply process_index_primary; [apply Hl; by left | exact Hkept]].
    destruct (decide (x = ix)) as [-> | Hne].
    + rewrite process_index_old;
        [| by rewrite (prior_record_ext c key st0 st Hkept) | done].
      rewrite (bool_decide_eq_true_2 (ix ∈ ix :: l)) by (by left).
      by destruct (bool_decide (ix ∈ l)).
    + assert (Hsame : resolve (process_index c key record st x)
                        (index_path_of c ix r0 key)
                      = resolve st (index_path_of c ix r0 key)).
      { destruct Hsep as [Hidx _]. apply process_index_frame.
        - apply Hidx; [done | apply Hl; by left | congruence
                       | by right | by left].
        - intros r1 Hprior1.
          apply Hidx; [done | apply Hl; by left | congruence | by right |].
          by apply (involved_prior st). }
      rewrite Hsame.
      destruct (decide (ix ∈ l)) as [Hin | Hnin].
      * rewrite (bool_decide_eq_true_2 (ix ∈ x :: l)) by (by right).
        by rewrite (bool_decide_eq_true_2 (ix ∈ l)).
      * rewrite (bool_decide_eq_false_2 (ix ∈ x :: l))
          by (intros [? | ?]%elem_of_cons; congruence).
        by rewrite (bool_decide_eq_false_2 (ix ∈ l)).
Qed.

End Fold.

(** X1 (round trip): a record whose text is not empty and parses back to
    the record is what [Get] returns after [Put]. *)
Theorem Put_Get_round_trip (c : collection) (key : string) (record : M)
    (st : stm_state) :
  String_ record <> "" ->
  UnmarshalText (String_ record) = inl record ->
  Get c key (Put c key record st).2 = (inl record, (Put c key record st).2).
Proof.
  intros Htext Hparse. rewrite Get_run, resolve_Put.
  rewrite bool_decide_eq_false_2 by done. by rewrite Hparse.
Qed.

(** X2 (index entries): after [Put] every declared index has its entry
    for the record: an index path that resolved to nothing holds the
    key, one that resolved to a value keeps it. *)
Theorem Put_index_entries (c : collection) (declared : list Index)
    (key : string) (record : M) (st : stm_state) (ix : Index) :
  indexes c = Some declared ->
  key <> "" ->
  separated c declared key record st ->
  ix ∈ declared ->
  resolve (Put c key record st).2 (index_path_of c ix record key)
  = if bool_decide (resolve st (index_path_of c ix record key) = "")
    then key else resolve st (index_path_of c ix record key).
Proof.
  intros Hdecl Hkey Hsep Hix. rewrite Put_run, Hdecl. cbn [snd].
  rewrite resolve_write_ne
    by (apply (proj2 Hsep); [done | by left]).
  rewrite (fold_entry c declared key record st Hsep ix declared st)
    by done.
  by rewrite bool_decide_eq_true_2.
Qed.

(** X3 (index migration): when the record stored before gives another
    index path than the new one, [Put] leaves nothing at the former
    index path. *)
Theorem Put_index_migration (c : collection) (declared : list Index)
    (key : string) (record r0 : M) (st : stm_state) (ix : Index) :
  indexes c = Some declared ->
  separated c declared key record st ->
  ix ∈ declared ->
  prior_record c key st = Some r0 ->
  index_path_of c ix r0 key <> index_path_of c ix record key ->
  resolve (Put c key record st).2 (index_path_of c ix r0 key) = "".
Proof.
  intros Hdecl Hsep Hix Hprior Hmoved. rewrite Put_run, Hdecl. cbn [snd].
  rewrite resolve_write_ne
    by (apply (proj2 Hsep); [done | by right]).
  rewrite (fold_old c declared key record st Hsep ix r0 declared st)
    by done.
  by rewrite bool_decide_eq_true_2.
Qed.


Lemma process_index_id (c : collection) (key : string) (record : M)
    (ix : Index) (st : stm_state) :
  (forall r1 : M, prior_record c key st = Some r1 ->
     index_path_of c ix r1 key = index_path_of c ix record key) ->
  resolve st (index_path_of c ix record key) <> "" ->
  process_index c key record st ix = st.
Proof.
  intros Hsame Hheld. unfold process_index, drop_prior.
  destruct (prior_record c key st) as [r1|].
  - rewrite bool_decide_eq_true_2 by (by apply Hsame).
    unfold add_new. by rewrite bool_decide_eq_false_2.
  - unfold add_new. by rewrite bool_decide_eq_false_2.
Qed.

(** X4 (no repeated index write): when every declared index already has
    an entry at the index path of the record, and the record stored
    before gives the same index paths, [Put] issues one write, that of
    the record. *)
Theorem Put_writes_record_only (c : collection) (declared : list Index)
    (key : string) (record : M) (st : stm_state) :
  indexes c = Some declared ->
  (forall (r1 : M) (ix : Index),
      prior_record c key st = Some r1 -> ix ∈ declared ->
      index_path_of c ix r1 key = index_path_of c ix record key) ->
  (forall ix : Index, ix ∈ declared ->
      resolve st (index_path_of c ix record key) <> "") ->
  Put c key record st = (tt, write (path c key) (String_ record) st).
Proof.
  intros Hdecl Hsame Hheld. rewrite Put_run, Hdecl.
  assert (Hfold : forall l : list Index,
             (forall x, x ∈ l -> x ∈ declared) ->
             fold_left (process_index c key record) l st = st).
  { induction l as [|x l IH]; intros Hl; [reflexivity|].
    cbn [fold_left]. rewrite process_index_id.
    - apply IH. intros y Hy. apply Hl. by right.
    - intros r1 Hprior. apply Hsame; [done | apply Hl; by left].
    - apply Hheld, Hl. by left. }
  by rewrite Hfold.
Qed.

Lemma Delete_index_run (c : collection) (key : string) (ix : Index)
    (st : stm_state) :
  Delete_index (M := M) c key ix st
  = (tt, match prior_record (M := M) c key st with
         | Some r => remove (index_path_of c ix r key) st
         | None => st
         end).
Proof.
  unfold Delete_index, prior_record. rewrite bind_run, Get_run. cbn [fst snd].
  case_bool_decide; [reflexivity|].
  by destruct (UnmarshalText _).
Qed.

(** The deletions of a list of paths, one after the other. *)
Lemma remove_all_wlog {A : Type} (f : A -> string) (l : list A)
    (st : stm_state) :
  wlog (fold_left (fun s x => remove (f x) s) l st)
  = wlog st ++ (OpDel <$> (f <$> l)).
Proof.
  revert st. induction l as [|x l IH]; intros st.
  - simpl. by rewrite app_nil_r.
  - cbn [fold_left]. rewrite IH. simpl. by rewrite <- app_assoc.
Qed.

Lemma remove_all_frame {A : Type} (f : A -> string) (l : list A)
    (st : stm_state) (p : string) :
  (forall x, x ∈ l -> p <> f x) ->
  resolve (fold_left (fun s x => remove (f x) s) l st) p = resolve st p.
Proof.
  revert st. induction l as [|x l IH]; intros st Hp; [reflexivity|].
  cbn [fold_left]. rewrite IH by (intros y Hy; apply Hp; by right).
  apply resolve_remove_ne, Hp. by left.
Qed.

Lemma remove_all_gone {A : Type} (f : A -> string) (l : list A)
    (st : stm_state) (p : string) :
  Exists (fun z => f z = p) l ->
  resolve (fold_left (fun s x => remove (f x) s) l st) p = "".
Proof.
  revert st. induction l as [|y l IH]; intros st Hex.
  - by apply Exists_nil in Hex.
  - cbn [fold_left].
    destruct (decide (Exists (fun z => f z = p) l)) as [Hlater | Hno].
    + by apply IH.
    + apply Exists_cons in Hex as [<- | Hex]; [|done].
      rewrite remove_all_frame; [apply resolve_remove|].
      intros z Hz Heq. apply Hno, Exists_exists. by exists z.
Qed.

(** X5 (delete with the record): on a collection with declared indexes,
    [Delete] with a record value, at a key whose stored record [r0] can
    be read and whose index paths differ from the primary path, deletes
    the index path of [r0] for every declared index, in declaration
    order, and then the primary path; nothing else changes. *)
Theorem Delete_with_record (c : collection) (declared : list Index)
    (key : string) (val : M) (vals : list M) (r0 : M) (st : stm_state) :
  indexes c = Some declared ->
  prior_record c key st = Some r0 ->
  (forall ix : Index, ix ∈ declared ->
      index_path_of c ix r0 key <> path c key) ->
  let st' := (Delete c key (val :: vals) st).2 in
  (Delete c key (val :: vals) st).1 = None
  /\ wlog st'
     = wlog st ++ (OpDel <$> ((fun ix => index_path_of c ix r0 key) <$> declared))
       ++ [OpDel (path c key)]
  /\ resolve st' (path c key) = ""
  /\ (forall ix : Index, ix ∈ declared ->
        resolve st' (index_path_of c ix r0 key) = "")
  /\ (forall p : string,
        p <> path c key ->
        (forall ix : Index, ix ∈ declared -> p <> index_path_of c ix r0 key) ->
        resolve st' p = resolve st p).
Proof.
  intros Hdecl Hprior Hprim.
  set (f := fun ix : Index => index_path_of c ix r0 key).
  assert (Hpresent : resolve st (path c key) <> "").
  { intros Habs. unfold prior_record in Hprior.
    by rewrite bool_decide_eq_true_2 in Hprior. }
  assert (Hloop : forall (l : list Index) (s : stm_state),
             (forall x, x ∈ l -> x ∈ declared) ->
             resolve s (path c key) = resolve st (path c key) ->
             for_range l (Delete_index (M := M) c key) s
             = (tt, fold_left (fun s x => remove (f x) s) l s)).
  { induction l as [|x l IH]; intros s Hl Hkept; [reflexivity|].
    cbn [for_range fold_left]. rewrite bind_run, Delete_index_run.
    rewrite (prior_record_ext c key st s Hkept), Hprior. cbn [fst snd].
    apply IH.
    - intros y Hy. apply Hl. by right.
    - rewrite <- Hkept. apply resolve_remove_ne.
      intros Heq. apply (Hprim x); [apply Hl; by left | done]. }
  assert (Hrun : Delete c key (val :: vals) st
                 = (None, remove (path c key)
                            (fold_left (fun s x => remove (f x) s) declared st))).
  { unfold Delete. rewrite bind_run, stm_Get_run. cbn [fst snd].
    rewrite bool_decide_eq_false_2 by done.
    rewrite Hdecl, bind_run, Hloop by done. reflexivity. }
  rewrite Hrun. cbn [fst snd]. split; [reflexivity|]. split; [|split; [|split]].
  - unfold remove at 1. cbn [wlog]. by rewrite remove_all_wlog, <- app_assoc.
  - apply resolve_remove.
  - intros ix Hix. rewrite resolve_remove_ne by (by apply Hprim).
    apply (remove_all_gone f), Exists_exists. by exists ix.
  - intros p Hp Hother. rewrite resolve_remove_ne by done.
    by apply remove_all_frame.
Qed.

(** X6 (delete of an unreadable record): when the text stored at the key
    does not parse, [Delete] deletes the primary path only, with or
    without a record value: the index entries of the key stay. *)
Theorem Delete_unreadable (c : collection) (key : string) (vals : list M)
    (st : stm_state) :
  resolve st (path c key) <> "" ->
  prior_record (M := M) c key st = None ->
  Delete c key vals st = (None, remove (path c key) st).
Proof.
  intros Hpresent Hprior.
  assert (Hloop : forall l : list Index,
             for_range l (Delete_index (M := M) c key) st = (tt, st)).
  { induction l as [|x l IH]; [reflexivity|].
    cbn [for_range]. rewrite bind_run, Delete_index_run, Hprior. exact IH. }
  unfold Delete. rewrite bind_run, stm_Get_run. cbn [fst snd].
  rewrite bool_decide_eq_false_2 by done.
  rewrite bind_run.
  destruct (indexes c) as [ixs|], vals as [|v vs]; rewrite ?Hloop; reflexivity.
Qed.

(** X7 (create, then delete): on a collection without indexes, at a path
    the key space does not hold, [Create] of a record with a non-empty
    text followed by [Delete] succeeds twice and gives the key space
    back as it was. *)
Theorem Create_Delete_restores (c : collection) (key : string) (record : M)
    (vals : list M) (st : stm_state) :
  indexes c = None \/ indexes c = Some [] ->
  kvs st !! path c key = None ->
  String_ record <> "" ->
  let st1 := (Create c key record st).2 in
  let st2 := (Delete c key vals st1).2 in
  (Create c key record st).1 = None
  /\ (Delete c key vals st1).1 = None
  /\ kvs st2 = kvs st
  /\ wlog st2 = wlog st ++ [OpPut (path c key) (String_ record);
                            OpDel (path c key)].
Proof.
  intros Hnoidx Hfresh Htext.
  assert (Habsent : resolve st (path c key) = "")
    by (unfold resolve; by rewrite Hfresh).
  assert (Hcreate : Create c key record st
                    = (None, write (path c key) (String_ record) st)).
  { rewrite Create_run, bool_decide_eq_false_2 by (intros Hne; by apply Hne).
    rewrite Put_run. by destruct Hnoidx as [-> | ->]. }
  rewrite Hcreate. cbn [fst snd].
  assert (Hdelete : Delete c key vals (write (path c key) (String_ record) st)
                    = (None, remove (path c key)
                               (write (path c key) (String_ record) st))).
  { unfold Delete. rewrite bind_run, stm_Get_run, resolve_write. cbn [fst snd].
    rewrite bool_decide_eq_false_2 by done. rewrite bind_run.
    destruct Hnoidx as [-> | ->]; destruct vals; reflexivity. }
  rewrite Hdelete. cbn [fst snd]. split; [reflexivity|]. split; [reflexivity|].
  split.
  - unfold remove, write. simpl. rewrite delete_insert_eq. by apply delete_id.
  - unfold remove, write. simpl. by rewrite <- app_assoc.
Qed.

End Index.

Import Job.

Lemma jobs_separated :
  separated jobs ["State"] "j1" {| State := "done" |} running_stm.
Proof.
  split.
  - intros ix ix' r r' ->%list_elem_of_singleton ->%list_elem_of_singleton Hne.
    done.
  - intros ix r ->%list_elem_of_singleton [-> | Hprior].
    + vm_compute. discriminate.
    + vm_compute in Hprior. injection Hprior as <-. vm_compute. discriminate.
Qed.

Lemma Put_Get_round_trip_witness :
  Get jobs "j1" (Put jobs "j1" {| State := "running" |} empty_stm).2
  = (inl {| State := "running" |},
     (Put jobs "j1" {| State := "running" |} empty_stm).2).
Proof.
  apply Put_Get_round_trip; [vm_compute; discriminate | reflexivity].
Defined.

Lemma Put_index_entries_witness :
  resolve (Put jobs "j1" {| State := "done" |} running_stm).2
          (index_path_of jobs "State" {| State := "done" |} "j1")
  = "j1".
Proof.
  rewrite (Put_index_entries jobs ["State"] "j1" {| State := "done" |}
             running_stm "State");
    [reflexivity | reflexivity | discriminate | apply jobs_separated
     | by apply list_elem_of_singleton].
Defined.

Lemma Put_index_migration_witness :
  resolve (Put jobs "j1" {| State := "done" |} running_stm).2
          (index_path_of jobs "State" {| State := "running" |} "j1")
  = "".
Proof.
  apply (Put_index_migration jobs ["State"]);
    [reflexivity | apply jobs_separated | by apply list_elem_of_singleton
     | reflexivity | vm_compute; discriminate].
Defined.

Lemma Put_writes_record_only_witness :
  Put jobs "j1" {| State := "running" |} running_stm
  = (tt, write "jobs/j1" "State:running" running_stm).
Proof.
  refine (Put_writes_record_only jobs ["State"] "j1" {| State := "running" |}
            running_stm _ _ _).
  - reflexivity.
  - intros r1 ix Hprior ->%list_elem_of_singleton.
    vm_compute in Hprior. by injection Hprior as <-.
  - intros ix ->%list_elem_of_singleton. vm_compute. discriminate.
Defined.

Lemma Delete_with_record_witness :
  let st' := (Delete jobs "j1" [{| State := "" |}] running_stm).2 in
  (Delete jobs "j1" [{| State := "" |}] running_stm).1 = None
  /\ wlog st' = wlog running_stm
               ++ [OpDel "jobs__index_State/running/j1"; OpDel "jobs/j1"]
  /\ resolve st' "jobs/j1" = ""
  /\ resolve st' "jobs__index_State/running/j1" = "".
Proof.
  destruct (Delete_with_record jobs ["State"] "j1" {| State := "" |} []
              {| State := "running" |} running_stm)
    as (Hok & Hlog & Hprimary & Hentries & _).
  - reflexivity.
  - reflexivity.
  - intros ix ->%list_elem_of_singleton. vm_compute. discriminate.
  - refine (conj Hok (conj Hlog (conj Hprimary _))).
    apply (Hentries "State"). by apply list_elem_of_singleton.
Defined.

Lemma Delete_unreadable_witness :
  Delete jobs "j1" [{| State := "running" |}] garbled_stm
  = (None, remove "jobs/j1" garbled_stm).
Proof.
  refine (Delete_unreadable jobs "j1" [{| State := "running" |}] garbled_stm
            _ _); [vm_compute; discriminate | reflexivity].
Defined.

Lemma Create_Delete_restores_witness :
  let st1 := (Create counters "k" {| State := "on" |} empty_stm).2 in
  let st2 := (Delete (M := JobInfo) counters "k" [] st1).2 in
  (Create counters "k" {| State := "on" |} empty_stm).1 = None
  /\ (Delete (M := JobInfo) counters "k" [] st1).1 = None
  /\ kvs st2 = kvs empty_stm
  /\ wlog st2 = wlog empty_stm ++ [OpPut "counters/k" "State:on";
                                    OpDel "counters/k"].
Proof.
  refine (Create_Delete_restores counters "k" {| State := "on" |} [] empty_stm
            _ _ _); [by left | reflexivity | vm_compute; discriminate].
Defined.

End IndexTheorems.

(** ** Numbers and their texts *)

Module StrconvTheorems.
Import GoStrconv Digits.

Lemma uint_val_mono (d : Decimal.uint) (acc : Z) :
  (0 <= acc -> acc <= uint_val d acc)%Z.
Proof.
  revert acc. induction d as [|d IH|d IH|d IH|d IH|d IH|d IH|d IH|d IH|d IH|d IH];
    intros acc Hacc; simpl; [lia | ..];
    (etransitivity; [|apply IH]; lia).
Qed.

(** The digit loop reads a numeral back to its value as long as the
    value fits. *)
Lemma ParseUint_loop_val (d : Decimal.uint) (acc : Z) :
  (0 <= acc)%Z -> (uint_val d acc <= maxUint64)%Z ->
  ParseUint_loop (NilEmpty.string_of_uint d) acc = inl (uint_val d acc).
Proof.
  revert acc.
  induction d as [|d IH|d IH|d IH|d IH|d IH|d IH|d IH|d IH|d IH|d IH];
    intros acc Hacc Hfits; [reflexivity | ..];
    cbn [NilEmpty.string_of_uint ParseUint_loop uint_val] in *;
    (match goal with
     | |- context [digit_of ?ch] =>
         let k := eval vm_compute in (digit_of ch) in
         change (digit_of ch) with k
     end);
    cbv beta iota;
    (match goal with
     | |- context [uint_val d ?a] =>
         pose proof (uint_val_mono d a ltac:(lia)) as Hmono
     end);
    change (maxUint64 / 10 + 1)%Z with 1844674407370955162%Z;
    unfold maxUint64 in *;
    rewrite (proj2 (Z.leb_gt _ _)) by lia;
    rewrite (proj2 (Z.ltb_ge _ _)) by lia;
    apply IH; lia.
Qed.

Lemma uint_val_pos (d : Decimal.uint) (p : positive) :
  uint_val d (Z.pos p) = Z.pos (Pos.of_uint_acc d p).
Proof.
  revert p.
  induction d as [|d IH|d IH|d IH|d IH|d IH|d IH|d IH|d IH|d IH|d IH];
    intros p; [reflexivity | ..]; simpl;
    (match goal with
     | |- uint_val d ?a = Z.pos (Pos.of_uint_acc d ?q) =>
         replace a with (Z.pos q) by lia
     end); apply IH.
Qed.

Lemma uint_val_zero (d : Decimal.uint) :
  uint_val d 0%Z = Z.of_N (Pos.of_uint d).
Proof.
  induction d as [|d IH|d IH|d IH|d IH|d IH|d IH|d IH|d IH|d IH|d IH];
    [reflexivity | exact IH | ..]; simpl; apply uint_val_pos.
Qed.

Lemma to_uint_val (p : positive) : uint_val (Pos.to_uint p) 0%Z = Z.pos p.
Proof. by rewrite uint_val_zero, DecimalPos.Unsigned.of_to. Qed.

Lemma to_uint_not_Nil (p : positive) : Pos.to_uint p <> Decimal.Nil.
Proof.
  intros Hnil. pose proof (DecimalPos.Unsigned.of_to p) as Hof.
  rewrite Hnil in Hof. discriminate Hof.
Qed.

Lemma string_of_uint_not_empty (d : Decimal.uint) :
  d <> Decimal.Nil -> NilEmpty.string_of_uint d <> "".
Proof. destruct d; done. Qed.

Lemma ParseUint_to_uint (p : positive) :
  (Z.pos p <= maxUint64)%Z ->
  ParseUint (NilEmpty.string_of_uint (Pos.to_uint p)) = inl (Z.pos p).
Proof.
  intros Hfits. unfold ParseUint.
  rewrite bool_decide_eq_false_2
    by apply string_of_uint_not_empty, to_uint_not_Nil.
  rewrite ParseUint_loop_val;
    [by rewrite to_uint_val | lia | by rewrite to_uint_val].
Qed.

(** A numeral without sign is read as a number that is not negative. *)
Lemma Atoi_unsigned (d : Decimal.uint) :
  d <> Decimal.Nil ->
  Atoi (NilEmpty.string_of_uint d)
  = match ParseUint (NilEmpty.string_of_uint d) with
    | inr ErrSyntax => inr ErrSyntax
    | r =>
        let un := match r with inl n => n | inr _ => maxUint64 end in
        if (intCutoff <=? un)%Z then inr ErrRange else inl un
    end.
Proof. destruct d; [done | reflexivity ..]. Qed.

Lemma Atoi_minus (s : string) :
  Atoi (String "-" s)
  = match ParseUint s with
    | inr ErrSyntax => inr ErrSyntax
    | r =>
        let un := match r with inl n => n | inr _ => maxUint64 end in
        if (intCutoff <? un)%Z then inr ErrRange else inl (- un)%Z
    end.
Proof. reflexivity. Qed.

(** The text [strconv.Itoa] writes for an [int] is read back by
    [strconv.Atoi] as that number. *)
Theorem Atoi_Itoa (n : Z) : is_int n -> Atoi (Itoa n) = inl n.
Proof.
  unfold is_int, intCutoff. intros Hint. destruct n as [|p|p].
  - reflexivity.
  - unfold Itoa. cbn [Z.to_int NilEmpty.string_of_int].
    rewrite Atoi_unsigned by apply to_uint_not_Nil.
    rewrite ParseUint_to_uint by (unfold maxUint64; lia).
    cbv zeta. unfold intCutoff.
    by rewrite (proj2 (Z.leb_gt _ _)) by lia.
  - unfold Itoa. cbn [Z.to_int NilEmpty.string_of_int].
    rewrite Atoi_minus.
    rewrite ParseUint_to_uint by (unfold maxUint64; lia).
    cbv zeta. unfold intCutoff.
    by rewrite (proj2 (Z.ltb_ge _ _)) by lia.
Qed.

Lemma Atoi_Itoa_witness : Atoi (Itoa (-42)) = inl (-42)%Z.
Proof. apply Atoi_Itoa. unfold is_int, intCutoff. lia. Defined.

Lemma wrap_int_is_int (n : Z) : is_int (wrap_int n).
Proof.
  unfold is_int, wrap_int, intCutoff.
  pose proof (Z.mod_pos_bound (n + 9223372036854775808)
                (2 * 9223372036854775808) ltac:(lia))%Z.
  lia.
Qed.

Lemma wrap_int_id (n : Z) : is_int n -> wrap_int n = n.
Proof.
  unfold is_int, wrap_int, intCutoff. intros Hint.
  rewrite Z.mod_small by lia. lia.
Qed.

(** Adding one and taking one away, each with wrap-around, gives the
    number back. *)
Lemma wrap_int_succ_pred (n : Z) :
  is_int n -> wrap_int (wrap_int (n + 1) - 1) = n%Z.
Proof.
  unfold is_int, wrap_int, intCutoff. intros Hint.
  replace ((n + 1 + 9223372036854775808) mod (2 * 9223372036854775808)
           - 9223372036854775808 - 1 + 9223372036854775808)%Z
    with ((n + 1 + 9223372036854775808) mod (2 * 9223372036854775808) - 1)%Z
    by lia.
  rewrite Zminus_mod_idemp_l.
  replace (n + 1 + 9223372036854775808 - 1)%Z
    with (n + 9223372036854775808)%Z by lia.
  rewrite Z.mod_small by lia. lia.
Qed.

Lemma digit_of_bounds (ch : ascii) (d : Z) :
  digit_of ch = Some d -> (0 <= d <= 9)%Z.
Proof.
  unfold digit_of. destruct (_ && _) eqn:Hrange; [|discriminate].
  apply andb_true_iff in Hrange as [Hlo%Z.leb_le Hhi%Z.leb_le].
  intros [= <-]. lia.
Qed.

Lemma ParseUint_loop_bounds (s : string) (acc r : Z) :
  (0 <= acc <= maxUint64)%Z ->
  ParseUint_loop s acc = inl r -> (0 <= r <= maxUint64)%Z.
Proof.
  revert acc. induction s as [|ch s IH]; intros acc Hacc; simpl.
  - by intros [= <-].
  - destruct (digit_of ch) as [d|] eqn:Hd; [|discriminate].
    apply digit_of_bounds in Hd.
    destruct (_ <=? acc)%Z; [discriminate|].
    destruct (maxUint64 <? acc * 10 + d)%Z eqn:Hover; [discriminate|].
    apply Z.ltb_ge in Hover. apply IH. lia.
Qed.

Lemma ParseUint_bounds (s : string) (r : Z) :
  ParseUint s = inl r -> (0 <= r <= maxUint64)%Z.
Proof.
  unfold ParseUint. case_bool_decide; [discriminate|].
  apply ParseUint_loop_bounds. unfold maxUint64. lia.
Qed.

(** What [strconv.Atoi] returns is an [int]. *)
Lemma Atoi_is_int (s : string) (n : Z) : Atoi s = inl n -> is_int n.
Proof.
  unfold Atoi, is_int. destruct s as [|ch s]; [discriminate|].
  set (digits := if _ || _ then s else String ch s).
  destruct (ParseUint digits) as [un | [|]] eqn:Hparse; [| discriminate |].
  - apply ParseUint_bounds in Hparse. cbv zeta.
    destruct (bool_decide (ch = "-"%char)); cbn [negb andb].
    + destruct (intCutoff <? un)%Z eqn:Hcut; [discriminate|].
      apply Z.ltb_ge in Hcut. intros [= <-].
      unfold intCutoff, maxUint64 in *. lia.
    + destruct (intCutoff <=? un)%Z eqn:Hcut; [discriminate|].
      apply Z.leb_gt in Hcut. intros [= <-].
      unfold intCutoff, maxUint64 in *. lia.
  - cbv zeta. destruct (bool_decide (ch = "-"%char)); cbn [negb andb];
      rewrite ?(proj2 (Z.leb_le intCutoff maxUint64)),
              ?(proj2 (Z.ltb_lt intCutoff maxUint64)) by done;
      discriminate.
Qed.

Lemma Itoa_not_empty (n : Z) : is_int n -> Itoa n <> "".
Proof.
  intros Hint Hempty. pose proof (Atoi_Itoa n Hint) as Hback.
  rewrite Hempty in Hback. discriminate Hback.
Qed.

End StrconvTheorems.

(** ** Counters *)

Module CounterTheorems.
Import GoStrconv Digits ReadWriteInt PutSpec ReadWriteTheorems.
Import StrconvTheorems ReadWriteIntTheorems Job.

Lemma Atoi_not_empty (s : string) (n : Z) : Atoi s = inl n -> s <> "".
Proof. by intros Hparse ->. Qed.

Lemma IntGet_stored (c : collection) (key : string) (n : Z) (st : stm_state) :
  is_int n ->
  Get c key (write (path c key) (Itoa n) st)
  = (inl n, write (path c key) (Itoa n) st).
Proof.
  intros Hint. rewrite IntGet_run, resolve_write.
  rewrite bool_decide_eq_false_2 by (by apply Itoa_not_empty).
  by rewrite Atoi_Itoa.
Qed.

(** X8 (a counter round trip): [Create] of a counter at an absent key
    stores the decimal text of the number, and [Get] then returns the
    number. *)
Theorem IntCreate_Get (c : collection) (key : string) (n : Z)
    (st : stm_state) :
  resolve st (path c key) = "" ->
  is_int n ->
  Create c key n st = (None, write (path c key) (Itoa n) st)
  /\ Get c key (Create c key n st).2 = (inl n, (Create c key n st).2).
Proof.
  intros Habsent Hint.
  assert (Hcreate : Create c key n st
                    = (None, write (path c key) (Itoa n) st)).
  { unfold Create. rewrite bind_run, stm_Get_run. cbn [fst snd].
    rewrite bool_decide_eq_false_2 by (intros Hne; by apply Hne).
    reflexivity. }
  rewrite Hcreate. split; [reflexivity|]. cbn [snd].
  by apply IntGet_stored.
Qed.

Lemma IntCreate_Get_witness :
  Create counters "hits" 5 empty_stm
  = (None, write "counters/hits" "5" empty_stm)
  /\ Get counters "hits" (Create counters "hits" 5 empty_stm).2
     = (inl 5%Z, (Create counters "hits" 5 empty_stm).2).
Proof.
  refine (IntCreate_Get counters "hits" 5 empty_stm _ _);
    [reflexivity | unfold is_int, intCutoff; lia].
Defined.

Lemma Increment_run (c : collection) (key : string) (n : Z)
    (st : stm_state) :
  Atoi (resolve st (path c key)) = inl n ->
  Increment c key st
  = (None, write (path c key) (Itoa (wrap_int (n + 1))) st).
Proof.
  intros Hparse. unfold Increment.
  rewrite bind_run, stm_Get_run. cbn [fst snd].
  rewrite bool_decide_eq_false_2 by (by apply (Atoi_not_empty _ n)).
  by rewrite Hparse.
Qed.

Lemma Decrement_run (c : collection) (key : string) (n : Z)
    (st : stm_state) :
  Atoi (resolve st (path c key)) = inl n ->
  Decrement c key st
  = (None, write (path c key) (Itoa (wrap_int (n - 1))) st).
Proof.
  intros Hparse. unfold Decrement.
  rewrite bind_run, stm_Get_run. cbn [fst snd].
  rewrite bool_decide_eq_false_2 by (by apply (Atoi_not_empty _ n)).
  by rewrite Hparse.
Qed.

(** X9 (increment): on a counter whose text reads as [n], [Increment]
    succeeds and [Get] then returns [n + 1], wrapped around at 64 bits:
    it is [n + 1] unless [n] is the largest [int]. *)
Theorem Increment_Get (c : collection) (key : string) (n : Z)
    (st : stm_state) :
  Atoi (resolve st (path c key)) = inl n ->
  (Increment c key st).1 = None
  /\ (Get c key (Increment c key st).2).1 = inl (wrap_int (n + 1))
  /\ ((n + 1 < intCutoff)%Z -> wrap_int (n + 1) = (n + 1)%Z).
Proof.
  intros Hparse. rewrite (Increment_run c key n st Hparse). cbn [fst snd].
  split; [reflexivity|]. split.
  - by rewrite IntGet_stored by apply wrap_int_is_int.
  - intros Hroom. apply wrap_int_id.
    pose proof (Atoi_is_int _ _ Hparse) as Hint.
    unfold is_int, intCutoff in *. lia.
Qed.

(** X10 (decrement): on a counter whose text reads as [n], [Decrement]
    succeeds and [Get] then returns [n - 1], wrapped around at 64 bits:
    it is [n - 1] unless [n] is the smallest [int]. *)
Theorem Decrement_Get (c : collection) (key : string) (n : Z)
    (st : stm_state) :
  Atoi (resolve st (path c key)) = inl n ->
  (Decrement c key st).1 = None
  /\ (Get c key (Decrement c key st).2).1 = inl (wrap_int (n - 1))
  /\ ((- intCutoff < n)%Z -> wrap_int (n - 1) = (n - 1)%Z).
Proof.
  intros Hparse. rewrite (Decrement_run c key n st Hparse). cbn [fst snd].
  split; [reflexivity|]. split.
  - by rewrite IntGet_stored by apply wrap_int_is_int.
  - intros Hroom. apply wrap_int_id.
    pose proof (Atoi_is_int _ _ Hparse) as Hint.
    unfold is_int, intCutoff in *. lia.
Qed.

(** X11 (increment, then decrement): the counter reads as before, also
    across the wrap-around, and its text is the decimal text of the
    number. *)
Theorem Increment_Decrement (c : collection) (key : string) (n : Z)
    (st : stm_state) :
  Atoi (resolve st (path c key)) = inl n ->
  let st2 := (Decrement c key (Increment c key st).2).2 in
  (Decrement c key (Increment c key st).2).1 = None
  /\ resolve st2 (path c key) = Itoa n
  /\ (Get c key st2).1 = inl n.
Proof.
  intros Hparse. pose proof (Atoi_is_int _ _ Hparse) as Hint.
  rewrite (Increment_run c key n st Hparse). cbn [snd].
  rewrite (Decrement_run c key (wrap_int (n + 1)))
    by (rewrite resolve_write; apply Atoi_Itoa, wrap_int_is_int).
  cbn [fst snd]. rewrite wrap_int_succ_pred by done.
  split; [reflexivity|]. split; [apply resolve_write|].
  by rewrite IntGet_stored.
Qed.

(** The largest [int] wraps around to the smallest. *)
Example Increment_wraps :
  let st := write "counters/k" "9223372036854775807" empty_stm in
  (Get counters "k" (Increment counters "k" st).2).1
  = inl (-9223372036854775808)%Z.
Proof. vm_compute. reflexivity. Qed.

Lemma Increment_Get_witness :
  let st := write "counters/k" "+41" empty_stm in
  (Increment counters "k" st).1 = None
  /\ (Get counters "k" (Increment counters "k" st).2).1 = inl 42%Z.
Proof.
  intros st.
  destruct (Increment_Get counters "k" 41 st) as (Hok & Hget & Hroom);
    [reflexivity|].
  rewrite Hroom in Hget by (unfold intCutoff; lia).
  exact (conj Hok Hget).
Defined.

Lemma Decrement_Get_witness :
  let st := write "counters/k" "0" empty_stm in
  (Decrement counters "k" st).1 = None
  /\ (Get counters "k" (Decrement counters "k" st).2).1 = inl (-1)%Z.
Proof.
  intros st.
  destruct (Decrement_Get counters "k" 0 st) as (Hok & Hget & Hroom);
    [reflexivity|].
  rewrite Hroom in Hget by (unfold intCutoff; lia).
  exact (conj Hok Hget).
Defined.

Lemma Increment_Decrement_witness :
  let st := write "counters/k" "+41" empty_stm in
  let st2 := (Decrement counters "k" (Increment counters "k" st).2).2 in
  (Decrement counters "k" (Increment counters "k" st).2).1 = None
  /\ resolve st2 "counters/k" = "41"
  /\ (Get counters "k" st2).1 = inl 41%Z.
Proof.
  refine (Increment_Decrement counters "k" 41
            (write "counters/k" "+41" empty_stm) _).
  reflexivity.
Defined.

End CounterTheorems.

(** ** Keys and their paths *)

Module KeyTheorems.
Import GoStrings GoPath PathFacts PathSpec PathTheorems BaseFacts Job.

Lemma rooted_no_slash (k : string) :
  k <> "" -> no_slash k = true -> rooted k = false.
Proof.
  destruct k as [|ch k]; [done|]. simpl.
  intros _ [Hch _]%andb_true_iff. by apply negb_true_iff in Hch.
Qed.

(** A simple key is a clean path. *)
Lemma Clean_simple (k : string) : simple_key k = true -> Clean k = k.
Proof.
  intros Hk. destruct (simple_key_facts k Hk) as [Hne Hns].
  unfold Clean. rewrite bool_decide_eq_false_2 by done.
  rewrite split_no_slash by done. cbn [fold_left].
  rewrite clean_step_simple by done.
  by rewrite rooted_no_slash.
Qed.

(** The last element of the primary path of a simple key is the key. *)
Lemma Base_path (c : collection) (key : string) :
  simple_key key = true -> Base (path c key) = key.
Proof.
  intros Hk. unfold path.
  destruct (decide (prefix c = "")) as [-> | Hne].
  - simpl. rewrite bool_decide_eq_false_2 by (by apply simple_key_facts).
    rewrite Clean_simple by done. by apply Base_simple.
  - rewrite path_Join_nonempty by done. by apply Base_Clean_simple.
Qed.

(** X12 (keys are told apart): two simple keys with the same primary
    path, or with the same index path under whatever index names and
    values, are the same key. *)
Theorem simple_keys_injective (c : collection) (k1 k2 : string) :
  simple_key k1 = true -> simple_key k2 = true ->
  (path c k1 = path c k2 -> k1 = k2)
  /\ (forall ix1 v1 ix2 v2 : string,
        indexPath c ix1 v1 k1 = indexPath c ix2 v2 k2 -> k1 = k2).
Proof.
  intros Hk1 Hk2. split.
  - intros Heq. by rewrite <- (Base_path c k1), <- (Base_path c k2), Heq.
  - intros ix1 v1 ix2 v2 Heq.
    by rewrite <- (Base_indexPath c ix1 v1 k1), <- (Base_indexPath c ix2 v2 k2),
         Heq.
Qed.

Lemma simple_keys_injective_witness :
  (path jobs "j1" = path jobs "j1" -> "j1" = "j1")
  /\ (forall ix1 v1 ix2 v2 : string,
        indexPath jobs ix1 v1 "j1" = indexPath jobs ix2 v2 "j1" -> "j1" = "j1").
Proof. apply (simple_keys_injective jobs "j1" "j1"); reflexivity. Defined.

(** Keys that are not simple are not told apart. *)
Example keys_with_dot_collide : path jobs "j1" = path jobs "./j1".
Proof. reflexivity. Qed.

Lemma prefix_app_differs (a : string) (x y : ascii) (b d : string) :
  x <> y -> String.prefix (a +:+ String x b) (a +:+ String y d) = false.
Proof.
  intros Hxy. induction a as [|ch a IH].
  - rewrite !app_empty_l, prefix_String.
    destruct (ascii_dec x y); [congruence | reflexivity].
  - rewrite !app_String, prefix_String.
    destruct (ascii_dec ch ch); [exact IH | reflexivity].
Qed.

(** X13 (the two ranges are apart): under a prefix that ends with the
    separator, nothing at or below an index directory lies under the
    prefix of the collection, and nothing under the prefix lies at or
    below an index directory: the range [List] reads holds no index
    entry, the range [GetByIndex] reads holds no record. *)
Theorem indexDir_apart_from_prefix (c : collection) (index : Index)
    (indexVal : string) :
  ends_with_slash (prefix c) = true ->
  (forall rest : string,
      String.prefix (prefix c) (indexDir c index indexVal +:+ rest) = false)
  /\ (forall rest : string,
        String.prefix (indexDir c index indexVal) (prefix c +:+ rest) = false).
Proof.
  intros Hslash. unfold indexDir.
  destruct (TrimRight_slash_split (prefix c)) as (t & Hsplit & [-> | [t' ->]]).
  - exfalso. pose proof (ends_with_slash_TrimRight (prefix c)) as Hno.
    assert (Hsame : TrimRight_slash (prefix c) = prefix c).
    { rewrite Hsplit at 2. clear.
      induction (TrimRight_slash (prefix c)) as [|ch s IH]; [reflexivity|].
      rewrite app_String. by rewrite <- IH. }
    congruence.
  - set (T := TrimRight_slash (prefix c)) in *.
    change ("__index_" +:+ index +:+ "/" +:+ indexVal)
      with (String "_" ("_index_" +:+ index +:+ "/" +:+ indexVal)).
    split; intros rest.
    + rewrite Hsplit at 1. rewrite app_assoc_str, app_String.
      by apply prefix_app_differs.
    + rewrite Hsplit at 1. rewrite app_assoc_str, app_String.
      by apply prefix_app_differs.
Qed.

Lemma indexDir_apart_from_prefix_witness :
  String.prefix (prefix jobs)
                (indexDir jobs "State" "running" +:+ "/j1") = false
  /\ String.prefix (indexDir jobs "State" "running")
                   (prefix jobs +:+ "j1") = false.
Proof.
  destruct (indexDir_apart_from_prefix jobs "State" "running" eq_refl)
    as [Hlist Hindex].
  exact (conj (Hlist "/j1") (Hindex "j1")).
Defined.

(** X14 (normalising once is enough): a collection built from the prefix
    of a collection is that collection. *)
Theorem NewCollection_idempotent (p : string) (ixs : option (list Index)) :
  NewCollection (prefix (NewCollection p ixs)) ixs = NewCollection p ixs.
Proof.
  assert (Heq : forall q : string,
             NewCollection q ixs = {| prefix := prefix (NewCollection q ixs);
                                      indexes := ixs |}) by done.
  rewrite (Heq (prefix (NewCollection p ixs))), (Heq p). f_equal.
  rewrite (NewCollection_prefix (prefix (NewCollection p ixs))).
  destruct (decide (p = "")) as [-> | Hp]; [reflexivity|].
  assert (Hq : ends_with_slash (prefix (NewCollection p ixs)) = true).
  { rewrite NewCollection_prefix, bool_decide_eq_false_2 by done.
    destruct (ends_with_slash p) eqn:Hend; [done | apply ends_with_slash_snoc]. }
  rewrite Hq. rewrite bool_decide_eq_false_2; [reflexivity|].
  intros Hempty. rewrite Hempty in Hq. discriminate Hq.
Qed.

End KeyTheorems.

(** ** Iteration *)

Module IteratorTheorems.
Import GoStrings GoPath PathFacts PathTheorems BaseFacts KeyTheorems Job.

Section Iteration.
Context {M : Type} `{!Message M}.

(** X15 (a step of [List]): on the entry that holds the text of a record
    under the primary path of a simple key, a step of the iterator of
    [List] yields that key and that record, provided the text parses
    back to the record, and moves on by one entry. *)
Theorem List_Next_entry (c : collection) (i : Listing.iterator)
    (kv : KeyValue) (k : string) (r : M) :
  Listing.resp i !! Listing.index i = Some kv ->
  Key kv = path c k ->
  simple_key k = true ->
  Value kv = String_ r ->
  UnmarshalText (String_ r) = inl r ->
  Listing.Next (M := M) i
  = {| Listing.ok := true;
       Listing.retErr := None;
       Listing.key_out := Some k;
       Listing.val_out := Some r;
       Listing.iter := {| Listing.index := Listing.index i + 1;
                          Listing.resp := Listing.resp i |} |}.
Proof.
  intros Hkv Hkey Hk Hval Hparse. unfold Listing.Next.
  by rewrite Hkv, Hval, Hparse, Hkey, Base_path.
Qed.

(** X16 (a step of [GetByIndex]): on the index entry of a simple key
    whose record the store holds at that moment, a step of the indirect
    iterator yields that key and that record. *)
Theorem Next_index_entry (cl : etcdClient) (i : Readonly.indirectIterator)
    (kv found : KeyValue) (more : list KeyValue) (ix : Index)
    (v k : string) (r : M) :
  Readonly.resp i !! Readonly.index i = Some kv ->
  Key kv = indexPath (Readonly.col i) ix v k ->
  simple_key k = true ->
  etcd_Get cl (path (Readonly.col i) k) = inl (found :: more) ->
  Value found = String_ r ->
  UnmarshalText (String_ r) = inl r ->
  Readonly.Next (M := M) cl i
  = {| Readonly.ok := true;
       Readonly.retErr := None;
       Readonly.key_out := Some k;
       Readonly.val_out := Some r;
       Readonly.iter := {| Readonly.index := Readonly.index i + 1;
                           Readonly.resp := Readonly.resp i;
                           Readonly.col := Readonly.col i |} |}.
Proof.
  intros Hkv Hkey Hk Hget Hval Hparse. unfold Readonly.Next.
  rewrite Hkv, Hkey, Base_indexPath by done.
  unfold Readonly.Get. by rewrite Hget, Hval, Hparse.
Qed.

Lemma Base_path_nested (c : collection) (a k : string) :
  simple_key k = true -> Base (path c (a +:+ "/" +:+ k)) = k.
Proof.
  intros Hk. unfold path.
  destruct (decide (prefix c = "")) as [-> | Hne].
  - simpl. rewrite bool_decide_eq_false_2 by apply app_not_empty.
    by apply Base_Clean_simple.
  - rewrite path_Join_nonempty by done.
    rewrite <- (app_assoc_str (prefix c) "/" (a +:+ "/" +:+ k)).
    rewrite <- (app_assoc_str (prefix c +:+ "/") a ("/" +:+ k)).
    by apply Base_Clean_simple.
Qed.

Lemma Base_indexPath_nested (c : collection) (ix : Index) (v a k : string) :
  simple_key k = true -> Base (indexPath c ix v (a +:+ "/" +:+ k)) = k.
Proof.
  intros Hk. unfold indexPath.
  rewrite path_Join_nonempty by (unfold indexDir; apply app_not_empty).
  rewrite <- (app_assoc_str (indexDir c ix v) "/" (a +:+ "/" +:+ k)).
  rewrite <- (app_assoc_str (indexDir c ix v +:+ "/") a ("/" +:+ k)).
  by apply Base_Clean_simple.
Qed.

(** X17 (keys with a separator): for a key [a/k] the iterators read the
    key off the path as [k].  [List] reports the record under the key
    [k], and [GetByIndex] looks up the record stored at the key [k], not
    the one at [a/k]. *)
Theorem Next_nested_key (cl : etcdClient) (c : collection)
    (li : Listing.iterator) (i : Readonly.indirectIterator)
    (kv : KeyValue) (ix : Index) (v a k : string) :
  simple_key k = true ->
  (Listing.resp li !! Listing.index li = Some kv ->
   Key kv = path c (a +:+ "/" +:+ k) ->
   Listing.key_out (Listing.Next (M := M) li) = Some k)
  /\ (Readonly.resp i !! Readonly.index i = Some kv ->
      Key kv = indexPath (Readonly.col i) ix v (a +:+ "/" +:+ k) ->
      Readonly.key_out (Readonly.Next (M := M) cl i) = Some k
      /\ Readonly.val_out (Readonly.Next (M := M) cl i)
         = match Readonly.Get (M := M) cl (Readonly.col i) k with
           | inl r => Some r
           | inr _ => None
           end
      /\ Readonly.retErr (Readonly.Next (M := M) cl i)
         = match Readonly.Get (M := M) cl (Readonly.col i) k with
           | inl _ => None
           | inr e => Some e
           end).
Proof.
  intros Hk. split.
  - intros Hkv Hkey. unfold Listing.Next.
    rewrite Hkv, Hkey, Base_path_nested by done.
    by destruct (UnmarshalText _).
  - intros Hkv Hkey. unfold Readonly.Next.
    rewrite Hkv, Hkey, Base_indexPath_nested by done.
    by destruct (Readonly.Get _ _ _).
Qed.

(** Calling [Next] again and again, each time on the iterator the call
    before left. *)
Lemma List_steps_index (n : nat) (i : Listing.iterator) :
  Listing.index i + n <= length (Listing.resp i) ->
  Nat.iter n (fun j => Listing.iter (Listing.Next (M := M) j)) i
  = {| Listing.index := Listing.index i + n;
       Listing.resp := Listing.resp i |}.
Proof.
  revert i. induction n as [|n IH]; intros i Hn.
  - simpl. destruct i. simpl. f_equal. lia.
  - rewrite Nat.iter_succ_r.
    destruct (lookup_lt_is_Some_2 (Listing.resp i) (Listing.index i)
                ltac:(lia)) as [kv Hkv].
    assert (Hstep : Listing.iter (Listing.Next (M := M) i)
                    = {| Listing.index := Listing.index i + 1;
                         Listing.resp := Listing.resp i |}).
    { unfold Listing.Next. rewrite Hkv. by destruct (UnmarshalText _). }
    rewrite Hstep, IH by (simpl; lia). simpl. f_equal. lia.
Qed.

Lemma indirect_steps_index (cl : etcdClient) (n : nat)
    (i : Readonly.indirectIterator) :
  Readonly.index i + n <= length (Readonly.resp i) ->
  Nat.iter n (fun j => Readonly.iter (Readonly.Next (M := M) cl j)) i
  = {| Readonly.index := Readonly.index i + n;
       Readonly.resp := Readonly.resp i;
       Readonly.col := Readonly.col i |}.
Proof.
  revert i. induction n as [|n IH]; intros i Hn.
  - simpl. destruct i. simpl. f_equal. lia.
  - rewrite Nat.iter_succ_r.
    destruct (lookup_lt_is_Some_2 (Readonly.resp i) (Readonly.index i)
                ltac:(lia)) as [kv Hkv].
    assert (Hstep : Readonly.iter (Readonly.Next (M := M) cl i)
                    = {| Readonly.index := Readonly.index i + 1;
                         Readonly.resp := Readonly.resp i;
                         Readonly.col := Readonly.col i |}).
    { unfold Readonly.Next. rewrite Hkv. by destruct (Readonly.Get _ _ _). }
    rewrite Hstep, IH by (simpl; lia). simpl. f_equal. lia.
Qed.

(** X18 (the sequences end): from the iterator [List] or [GetByIndex]
    returns, as many calls of [Next] as the range read gave entries,
    whatever they return, lead to an iterator on which [Next] returns
    [ok = false] without error and changes nothing any more. *)
Theorem iteration_ends (cl0 cl : etcdClient) (c : collection) (ix : Index)
    (v : string) :
  (forall li : Listing.iterator,
      Listing.List cl0 c = inl li ->
      let done_ := Nat.iter (length (Listing.resp li))
                     (fun j => Listing.iter (Listing.Next (M := M) j)) li in
      Listing.ok (Listing.Next (M := M) done_) = false
      /\ Listing.retErr (Listing.Next (M := M) done_) = None
      /\ Listing.iter (Listing.Next (M := M) done_) = done_)
  /\ (forall i : Readonly.indirectIterator,
        Readonly.GetByIndex cl0 c ix v = inl i ->
        let done_ := Nat.iter (length (Readonly.resp i))
                       (fun j => Readonly.iter (Readonly.Next (M := M) cl j))
                       i in
        Readonly.ok (Readonly.Next (M := M) cl done_) = false
        /\ Readonly.retErr (Readonly.Next (M := M) cl done_) = None
        /\ Readonly.iter (Readonly.Next (M := M) cl done_) = done_).
Proof.
  split.
  - intros li Hli. unfold Listing.List in Hli.
    destruct (etcd_GetPrefix cl0 _) as [kvs|]; [|discriminate].
    injection Hli as <-. cbn [Listing.resp].
    rewrite List_steps_index by (simpl; lia). cbn zeta.
    unfold Listing.Next. cbn [Listing.resp Listing.index].
    by rewrite (lookup_ge_None_2 kvs (0 + length kvs)) by lia.
  - intros i Hi. unfold Readonly.GetByIndex in Hi.
    destruct (etcd_GetPrefix cl0 _) as [kvs|]; [|discriminate].
    injection Hi as <-. cbn [Readonly.resp].
    rewrite indirect_steps_index by (simpl; lia). cbn zeta.
    unfold Readonly.Next. cbn [Readonly.resp Readonly.index].
    by rewrite (lookup_ge_None_2 kvs (0 + length kvs)) by lia.
Qed.

End Iteration.

Lemma List_Next_entry_witness :
  Listing.Next (M := JobInfo)
    {| Listing.index := 0;
       Listing.resp := [{| Key := "jobs/j1"; Value := "State:running" |}] |}
  = {| Listing.ok := true;
       Listing.retErr := None;
       Listing.key_out := Some "j1";
       Listing.val_out := Some {| State := "running" |};
       Listing.iter :=
         {| Listing.index := 1;
            Listing.resp := [{| Key := "jobs/j1";
                                Value := "State:running" |}] |} |}.
Proof.
  refine (List_Next_entry jobs
            {| Listing.index := 0;
               Listing.resp := [{| Key := "jobs/j1";
                                   Value := "State:running" |}] |}
            {| Key := "jobs/j1"; Value := "State:running" |} "j1"
            {| State := "running" |} _ _ _ _ _); reflexivity.
Defined.

Lemma Next_index_entry_witness :
  let i := {| Readonly.index := 0;
              Readonly.resp := [{| Key := "jobs__index_State/running/j1";
                                   Value := "j1" |}];
              Readonly.col := jobs |} in
  Readonly.Next (M := JobInfo) (live {[ "jobs/j1" := "State:running" ]}) i
  = {| Readonly.ok := true;
       Readonly.retErr := None;
       Readonly.key_out := Some "j1";
       Readonly.val_out := Some {| State := "running" |};
       Readonly.iter := {| Readonly.index := 1;
                           Readonly.resp := Readonly.resp i;
                           Readonly.col := jobs |} |}.
Proof.
  intros i.
  refine (Next_index_entry (live {[ "jobs/j1" := "State:running" ]}) i
            {| Key := "jobs__index_State/running/j1"; Value := "j1" |}
            {| Key := "jobs/j1"; Value := "State:running" |} []
            "State" "running" "j1" {| State := "running" |} _ _ _ _ _ _);
    reflexivity.
Defined.

(** The index entry of the key ["a/j1"] makes the iterator return the
    record of the key ["j1"]. *)
Lemma Next_nested_key_witness :
  let li := {| Listing.index := 0;
               Listing.resp := [{| Key := "jobs/a/j1";
                                   Value := "State:done" |}] |} in
  let i := {| Readonly.index := 0;
              Readonly.resp := [{| Key := "jobs__index_State/done/a/j1";
                                   Value := "a/j1" |}];
              Readonly.col := jobs |} in
  let cl := live {[ "jobs/j1" := "State:running";
                    "jobs/a/j1" := "State:done" ]} in
  Listing.key_out (Listing.Next (M := JobInfo) li) = Some "j1"
  /\ Readonly.key_out (Readonly.Next (M := JobInfo) cl i) = Some "j1"
  /\ Readonly.val_out (Readonly.Next (M := JobInfo) cl i)
     = Some {| State := "running" |}.
Proof.
  intros li i cl.
  destruct (Next_nested_key (M := JobInfo) cl jobs li i
              {| Key := "jobs/a/j1"; Value := "State:done" |}
              "State" "done" "a" "j1" eq_refl) as [Hlist _].
  destruct (Next_nested_key (M := JobInfo) cl jobs li i
              {| Key := "jobs__index_State/done/a/j1"; Value := "a/j1" |}
              "State" "done" "a" "j1" eq_refl) as [_ Hindex].
  destruct (Hindex eq_refl eq_refl) as (Hkey & Hval & _).
  exact (conj (Hlist eq_refl eq_refl) (conj Hkey Hval)).
Defined.

Lemma iteration_ends_witness :
  let cl0 := live {[ "jobs/j1" := "garbage";
                     "jobs__index_State/running/j1" := "j1" ]} in
  let li := {| Listing.index := 0;
               Listing.resp := [{| Key := "jobs/j1"; Value := "garbage" |}] |} in
  let i := {| Readonly.index := 0;
              Readonly.resp := [{| Key := "jobs__index_State/running/j1";
                                   Value := "j1" |}];
              Readonly.col := jobs |} in
  Listing.ok (Listing.Next (M := JobInfo)
                (Listing.iter (Listing.Next (M := JobInfo) li))) = false
  /\ Readonly.ok (Readonly.Next (M := JobInfo) down
                    (Readonly.iter (Readonly.Next (M := JobInfo) down i)))
     = false.
Proof.
  intros cl0 li i.
  destruct (iteration_ends (M := JobInfo) cl0 down jobs "State" "running")
    as [Hlist Hindex].
  destruct (Hlist li) as (Hok & _); [vm_compute; reflexivity|].
  destruct (Hindex i) as (Hok' & _); [vm_compute; reflexivity|].
  exact (conj Hok Hok').
Defined.

End IteratorTheorems.

(** ** The events [WatchByIndex] sends *)

Module WatchShape.
Import GoPath Watch Job.

Lemma translate_Send (cl : etcdClient) (c : collection) (ev directEv : Event) :
  translate cl c ev = Send directEv ->
  ev_Type directEv = ev_Type ev
  /\ ev_Type ev <> EventError
  /\ ev_Key directEv = Base (ev_Key ev).
Proof.
  unfold translate. destruct (ev_Type ev) eqn:Htype.
  - destruct (etcd_Get cl _) as [[|kv more]|err]; [done | | done].
    by intros [= <-].
  - by intros [= <-].
  - done.
Qed.

(** X19 (what is sent): the events sent are translations of upstream
    events, in the order of the upstream and with the upstream's event
    type and the last element of its key, followed by at most one error
    event, after which the channel is closed. *)
Theorem WatchByIndex_sends (c : collection)
    (upstream : list (etcdClient * Event)) :
  exists body tail : list Event,
    sent (WatchByIndex c upstream) = body ++ tail
    /\ sublist ((fun ev => (ev_Type ev, ev_Key ev)) <$> body)
               ((fun ce => (ev_Type ce.2, Base (ev_Key ce.2))) <$> upstream)
    /\ Forall (fun ev => ev_Type ev <> EventError) body
    /\ (tail = []
        \/ exists e : error,
             tail = [error_event e]
             /\ closed (WatchByIndex c upstream) = true).
Proof.
  induction upstream as [|[cl ev] upstream (body & tail & Hsent & Hsub & Hbody & Htail)].
  - exists [], []. repeat split; [constructor | constructor | by left].
  - cbn [WatchByIndex].
    destruct (translate cl c ev) as [directEv | | [retErr|]] eqn:Hround.
    + destruct (translate_Send cl c ev directEv Hround) as (Htype & Hne & Hkey).
      exists (directEv :: body), tail. split; [|split; [|split]].
      * cbn [send sent]. by rewrite Hsent.
      * cbn [fmap list_fmap snd]. rewrite Htype, Hkey. by apply sublist_skip.
      * constructor; [congruence | exact Hbody].
      * destruct Htail as [-> | (e & -> & Hclosed)]; [by left | right].
        exists e. by split.
    + exists body, tail. split; [exact Hsent|]. split; [|split].
      * cbn [fmap list_fmap]. by apply sublist_cons.
      * exact Hbody.
      * exact Htail.
    + exists [], [error_event retErr]. split; [reflexivity|].
      split; [apply sublist_nil_l|]. split; [constructor|].
      right. by exists retErr.
    + exists [], []. split; [reflexivity|].
      split; [apply sublist_nil_l|]. split; [constructor | by left].
Qed.

(** X20 (the channel is closed): when every error event of the upstream
    carries an error, the channel is closed once the upstream is; an
    error event without error ends the task with the channel left
    open. *)
Theorem WatchByIndex_closes (c : collection)
    (upstream : list (etcdClient * Event)) :
  (Forall (fun ce => ev_Type ce.2 = EventError -> ev_Err ce.2 <> None)
          upstream ->
   closed (WatchByIndex c upstream) = true)
  /\ (forall (cl : etcdClient) (ev : Event),
        ev_Type ev = EventError -> ev_Err ev = None ->
        WatchByIndex c ((cl, ev) :: upstream)
        = {| sent := []; closed := false |}).
Proof.
  split.
  - induction upstream as [|[cl ev] upstream IH]; intros Hall; [reflexivity|].
    apply Forall_cons in Hall as [Hev Hall]. cbn [WatchByIndex snd] in *.
    destruct (translate cl c ev) as [directEv | | [retErr|]] eqn:Hround.
    + by apply IH.
    + by apply IH.
    + reflexivity.
    + exfalso. unfold translate in Hround.
      destruct (ev_Type ev) eqn:Htype.
      * by destruct (etcd_Get cl _) as [[|kv more]|err].
      * discriminate Hround.
      * injection Hround as Herr. by apply Hev.
  - intros cl ev Htype Herr. cbn [WatchByIndex]. unfold translate.
    by rewrite Htype, Herr.
Qed.

Lemma WatchByIndex_closes_witness :
  let found := live {[ "jobs/j1" := "State:running" ]} in
  closed (WatchByIndex jobs
            [(found, put_event "jobs__index_State/running/j1" "j1");
             (found, error_event (ErrStore "compacted"))]) = true
  /\ WatchByIndex jobs
       [(found, {| ev_Key := ""; ev_Value := None; ev_Type := EventError;
                   ev_Err := None |});
        (found, put_event "jobs__index_State/running/j1" "j1")]
     = {| sent := []; closed := false |}.
Proof.
  intros found. split.
  - apply (proj1 (WatchByIndex_closes jobs _)).
    repeat constructor; cbn [snd]; discriminate.
  - by apply (proj2 (WatchByIndex_closes jobs _)).
Defined.

End WatchShape.
